(** * In-memory FASTA reader (third_party/nucleus/io/in_memory_fasta_reader.cc)

    A shallow embedding of [InMemoryFastaReader::Create],
    [InMemoryFastaReader::GetBases], [InMemoryFastaReader::Iterate] and
    [FastaFullFileIterable::Next], followed by the properties the
    specification states about them.

    Conventions of the embedding:
    - [int64] protobuf fields are integers of [Z]; arithmetic on them wraps
      as two's complement ([int64_sub]); a conversion to [size_t] is
      reduction modulo 2^64 ([to_size_t]).
    - [std::unordered_map<string, ReferenceSequence>] is a
      [gmap string ReferenceSequence]: only lookups and insertions are
      used by the code, never the iteration order of the table.
    - a fallible call returns a [StatusOr]; the library calls that
      raise [std::out_of_range] ([unordered_map::at], [vector::at],
      [string::substr]) are modelled with [Outcome], so that a raised
      exception is never confused with a returned status.
    - a status carries its code and the arguments its message is built
      from; how a number or a range is printed in the message is not
      modelled. *)

From Stdlib Require Import ZArith NArith String List Lia.
From stdpp Require Import gmap strings list fin_maps.

Local Open Scope Z_scope.

(** ** Machine integers *)

Definition in_int64 (z : Z) : Prop := - 2 ^ 63 <= z < 2 ^ 63.

Definition wrap_int64 (z : Z) : Z := (z + 2 ^ 63) mod 2 ^ 64 - 2 ^ 63.

(** [a - b] on [int64] operands. *)
Definition int64_sub (a b : Z) : Z := wrap_int64 (a - b).

(** Conversion of an [int64] to [size_t] (64 bits, unsigned). *)
Definition to_size_t (z : Z) : Z := z mod 2 ^ 64.

(** [n++] on a [size_t]. *)
Definition size_t_incr (n : N) : N := ((n + 1) mod 2 ^ 64)%N.

(** ** Protocol messages *)

(** range.proto: [end] is a keyword, hence [end_]. *)
Record Range : Type := {
  reference_name : string;
  start : Z;
  end_ : Z
}.

Record ReferenceSequence : Type := {
  region : Range;
  bases : string
}.

(** Modelled from the spec: the message [ContigInfo] is declared in
    reference.proto, which is not among the sources; the specification
    lists a name, an ordinal position, a length and free-form metadata.
    The reader only ever reads [name]. *)
Record ContigInfo : Type := {
  name : string;
  description : string;
  n_bases : Z;
  pos_in_fasta : Z
}.

(** [GenomeReferenceRecord] is a pair: [first] is the contig name,
    [second] its bases. *)
Definition GenomeReferenceRecord : Type := (string * string)%type.

(** ** Results *)

Inductive Code : Type :=
| InvalidArgument
| FailedPrecondition.

(** The arguments that [tensorflow::errors::InvalidArgument] joins into
    the message of a status, in order: a string, a number, or the
    [ShortDebugString] of a range. *)
Inductive fragment : Type :=
| Text (s : string)
| Num (n : Z)
| Debug (r : Range).

Inductive StatusOr (A : Type) : Type :=
| Ok (a : A)
| Error (c : Code) (msg : list fragment).
Arguments Ok {A} a.
Arguments Error {A} c msg.

Inductive exception : Type :=
| out_of_range.

Inductive Outcome (A : Type) : Type :=
| Returns (a : A)
| Throws (e : exception).
Arguments Returns {A} a.
Arguments Throws {A} e.

(** [Outcome] is a monad: a raised exception skips the rest of the body. *)
#[global] Instance outcome_bind : MBind Outcome :=
  fun A B (k : A -> Outcome B) (o : Outcome A) =>
    match o with
    | Returns a => k a
    | Throws e => Throws e
    end.

(** ** Library calls *)

(** [std::string::empty]. *)
Definition empty_string (s : string) : bool :=
  match s with
  | EmptyString => true
  | String _ _ => false
  end.

(** [std::string::substr(pos, len)] on [size_t] arguments: raises
    [out_of_range] when [pos > size()], otherwise copies
    [min(len, size() - pos)] characters from [pos]. *)
Definition substr (s : string) (pos len : Z) : Outcome string :=
  let size := Z.of_nat (String.length s) in
  if size <? pos then Throws out_of_range
  else Returns (substring (Z.to_nat pos) (Z.to_nat (Z.min len (size - pos))) s).

(** [unordered_map::emplace]: inserts only when the key is free; the
    boolean is the [second] of the returned pair. *)
Definition emplace (k : string) (v : ReferenceSequence)
    (m : gmap string ReferenceSequence)
  : gmap string ReferenceSequence * bool :=
  match m !! k with
  | Some _ => (m, false)
  | None => (<[k := v]> m, true)
  end.

(** [unordered_map::at]: raises [out_of_range] on an absent key. *)
Definition map_at (m : gmap string ReferenceSequence) (k : string)
  : Outcome ReferenceSequence :=
  match m !! k with
  | Some v => Returns v
  | None => Throws out_of_range
  end.

(** [vector::at]: raises [out_of_range] past the end. *)
Definition vector_at {A : Type} (v : list A) (i : N) : Outcome A :=
  match v !! N.to_nat i with
  | Some x => Returns x
  | None => Throws out_of_range
  end.

(** Modelled from the spec: [IsValidInterval] is declared outside the
    sources; the specification says it applies to the query the same
    shape checks as I1: a non-empty reference name and
    [0 <= start <= end]. *)
Definition IsValidInterval (range : Range) : bool :=
  negb (empty_string (reference_name range))
  && (0 <=? start range) && (start range <=? end_ range).

(** ** The reader *)

Record InMemoryFastaReader : Type := {
  contigs_ : list ContigInfo;
  seqs_ : gmap string ReferenceSequence
}.

(** The body of the [for] loop of [Create], with [seqs_map] threaded
    through; every [return] inside the loop leaves it at once. *)
Fixpoint Create_loop (seqs : list ReferenceSequence)
    (seqs_map : gmap string ReferenceSequence)
  : StatusOr (gmap string ReferenceSequence) :=
  match seqs with
  | [] => Ok seqs_map
  | seq :: rest =>
    if empty_string (reference_name (region seq))
       || (start (region seq) <? 0)
       || (start (region seq) >? end_ (region seq))
    then Error InvalidArgument
           [Text "Malformed region "; Debug (region seq)]
    else
      let region_len :=
        to_size_t (int64_sub (end_ (region seq)) (start (region seq))) in
      if negb (region_len =? Z.of_nat (String.length (bases seq)))
      then Error InvalidArgument
             [Text "Region size = "; Num region_len;
              Text " not equal to bases.length() ";
              Num (Z.of_nat (String.length (bases seq)))]
      else
        let insert_result :=
          emplace (reference_name (region seq)) seq seqs_map in
        if negb (snd insert_result)
        then Error InvalidArgument
               [Text "Each ReferenceSequence must be on a different chromosome but multiple ones were found on ";
                Text (reference_name (region seq))]
        else Create_loop rest (fst insert_result)
  end.

Definition Create (contigs : list ContigInfo) (seqs : list ReferenceSequence)
  : StatusOr InMemoryFastaReader :=
  match Create_loop seqs ∅ with
  | Ok seqs_map => Ok {| contigs_ := contigs; seqs_ := seqs_map |}
  | Error c msg => Error c msg
  end.

Definition GetBases (this : InMemoryFastaReader) (range : Range)
  : Outcome (StatusOr string) :=
  if negb (IsValidInterval range)
  then Returns (Error InvalidArgument
                  [Text "Invalid interval: "; Debug range])
  else
    seq ← map_at (seqs_ this) (reference_name range);
    if (start range <? start (region seq))
       || (end_ range >? end_ (region seq))
    then Returns (Error InvalidArgument
                    [Text "Cannot query range="; Debug range;
                     Text " as this InMemoryFastaReader only has bases in the interval=";
                     Debug (region seq)])
    else
      let pos := int64_sub (start range) (start (region seq)) in
      let len := int64_sub (end_ range) (start range) in
      s ← substr (bases seq) (to_size_t pos) (to_size_t len);
      Returns (Ok s).

(** ** The iterable *)

(** [reader_] is the back pointer of the iterable base class; it is
    cleared when the reader is released. *)
Record FastaFullFileIterable : Type := {
  reader_ : option InMemoryFastaReader;
  pos_ : N
}.

Definition Iterate (this : InMemoryFastaReader) : StatusOr FastaFullFileIterable :=
  Ok {| reader_ := Some this; pos_ := 0%N |}.

(** What one call of [Next] leaves behind: the returned value, the
    iterable and the record behind the [out] pointer. *)
Record NextResult : Type := {
  returned : Outcome (StatusOr bool);
  iterable : FastaFullFileIterable;
  record : GenomeReferenceRecord
}.

(** Modelled from the spec: [CheckIsAlive] belongs to reader_base.h,
    which is not among the sources; the specification says a step on an
    iterable whose store is gone fails with a liveness error (its text
    is not in the sources and is left empty).  The [TF_RETURN_IF_ERROR]
    around it returns that error at once.  [out] is
    taken to be a valid pointer, as the [DCHECK_NE] demands. *)
Definition CheckIsAlive (it : FastaFullFileIterable) : StatusOr unit :=
  match reader_ it with
  | Some _ => Ok tt
  | None => Error FailedPrecondition []
  end.

Definition Next (it : FastaFullFileIterable) (out : GenomeReferenceRecord)
  : NextResult :=
  match CheckIsAlive it with
  | Error c msg =>
    {| returned := Returns (Error c msg); iterable := it; record := out |}
  | Ok _ =>
    match reader_ it with
    | None =>
      (* not reached: [CheckIsAlive] has just answered for [reader_] *)
      {| returned := Returns (Error FailedPrecondition []);
         iterable := it; record := out |}
    | Some fasta_reader =>
      if (N.of_nat (length (contigs_ fasta_reader)) <=? pos_ it)%N
      then {| returned := Returns (Ok false); iterable := it; record := out |}
      else
        match vector_at (contigs_ fasta_reader) (pos_ it) with
        | Throws e =>
          {| returned := Throws e; iterable := it; record := out |}
        | Returns contig =>
          let reference_name := name contig in
          match seqs_ fasta_reader !! reference_name with
          | None =>
            {| returned := Returns (Ok false);
               iterable := it; record := out |}
          | Some seq =>
            {| returned := Returns (Ok true);
               iterable := {| reader_ := reader_ it;
                              pos_ := size_t_incr (pos_ it) |};
               record := (reference_name, bases seq) |}
          end
        end
    end
  end.

(** A full traversal: the caller's loop, calling [Next] until it stops
    answering [true].  [fuel] bounds the number of calls. *)
Inductive TraversalEnd : Type :=
| NoMoreRecords
| Failed (r : Outcome (StatusOr bool))
| OutOfFuel.

Fixpoint traverse (fuel : nat) (it : FastaFullFileIterable)
    (out : GenomeReferenceRecord)
  : list GenomeReferenceRecord * TraversalEnd :=
  match fuel with
  | O => ([], OutOfFuel)
  | S fuel' =>
    let r := Next it out in
    match returned r with
    | Returns (Ok true) =>
      let rest := traverse fuel' (iterable r) (record r) in
      (record r :: fst rest, snd rest)
    | Returns (Ok false) => ([], NoMoreRecords)
    | other => ([], Failed other)
    end
  end.

(** The iterable after [k] further calls of [Next], with the record it
    left behind. *)
Fixpoint after_calls (k : nat) (it : FastaFullFileIterable)
    (out : GenomeReferenceRecord)
  : FastaFullFileIterable * GenomeReferenceRecord :=
  match k with
  | O => (it, out)
  | S k' =>
    let r := Next it out in after_calls k' (iterable r) (record r)
  end.

(** ** The invariants of the specification *)

(** Typing of the [int64] fields of a region. *)
Definition region_typed (r : Range) : Prop :=
  in_int64 (start r) /\ in_int64 (end_ r).

(** I1: non-empty reference name and [0 <= start <= end]. *)
Definition I1 (e : ReferenceSequence) : Prop :=
  reference_name (region e) <> EmptyString
  /\ 0 <= start (region e) <= end_ (region e).

(** I2: [len(bases) == end - start]. *)
Definition I2 (e : ReferenceSequence) : Prop :=
  Z.of_nat (String.length (bases e)) = end_ (region e) - start (region e).

(** The reference names of a list of sequences, in order. *)
Definition names (seqs : list ReferenceSequence) : list string :=
  (fun e => reference_name (region e)) <$> seqs.

(** I3: pairwise distinct reference names. *)
Definition I3 (seqs : list ReferenceSequence) : Prop := NoDup (names seqs).

(** A sequence violates a construction invariant, given the sequences
    scanned before it: a malformed region, a length mismatch, or a
    reference name that one of the earlier sequences already has. *)
Definition violates (before : list ReferenceSequence) (e : ReferenceSequence)
  : Prop :=
  ~ I1 e \/ ~ I2 e \/ reference_name (region e) ∈ names before.

(** No sequence of the scan violates an invariant, each one judged
    against the sequences before it. *)
Definition scan_clean (seqs : list ReferenceSequence) : Prop :=
  forall pre e post, seqs = pre ++ e :: post -> ~ violates pre e.

(** The map the loop of [Create] has built once it has accepted [seqs]. *)
Definition insert_all (seqs : list ReferenceSequence)
    (m : gmap string ReferenceSequence) : gmap string ReferenceSequence :=
  fold_left (fun acc e => <[reference_name (region e) := e]> acc) seqs m.

(** What [Create] guarantees of every entry of the map it builds: it is
    filed under its own reference name, its bounds are [int64] values,
    and it satisfies I1 and I2. *)
Definition store_inv (m : gmap string ReferenceSequence) : Prop :=
  forall k e, m !! k = Some e ->
    reference_name (region e) = k /\ region_typed (region e) /\ I1 e /\ I2 e.

(** The record [Next] emits for a contig whose sequence is cached. *)
Definition emitted (m : gmap string ReferenceSequence) (c : ContigInfo)
    (r : GenomeReferenceRecord) : Prop :=
  exists e, m !! name c = Some e /\ r = (name c, bases e).

(** The records of the leading contigs that have a cached sequence, up
    to the first contig without one. *)
Fixpoint cached_prefix (m : gmap string ReferenceSequence)
    (contigs : list ContigInfo) : list GenomeReferenceRecord :=
  match contigs with
  | [] => []
  | c :: rest =>
    match m !! name c with
    | Some e => (name c, bases e) :: cached_prefix m rest
    | None => []
    end
  end.

(** ** Sample data *)

Definition contig (n : string) (len : Z) (i : Z) : ContigInfo :=
  {| name := n; description := EmptyString; n_bases := len;
     pos_in_fasta := i |}.

Definition cached (n : string) (s e : Z) (b : string) : ReferenceSequence :=
  {| region := {| reference_name := n; start := s; end_ := e |};
     bases := b |}.

Definition chr1_contig : ContigInfo := contig "chr1" 1000 0.
Definition chr2_contig : ContigInfo := contig "chr2" 500 1.

(** [chr1] cached on [[100, 108)], [chr2] cached whole on [[0, 4)]. *)
Definition chr1_seq : ReferenceSequence := cached "chr1" 100 108 "ACGTTGCA".
Definition chr2_seq : ReferenceSequence := cached "chr2" 0 4 "GGCC".

(** A reader holding [chr1_seq] only, for the contigs [chr1; chr2]. *)
Definition chr1_only : InMemoryFastaReader :=
  {| contigs_ := [chr1_contig; chr2_contig];
     seqs_ := <["chr1" := chr1_seq]> ∅ |}.

(** A reader holding [chr2_seq] only, for the contigs [chr1; chr2]. *)
Definition chr2_only : InMemoryFastaReader :=
  {| contigs_ := [chr1_contig; chr2_contig];
     seqs_ := <["chr2" := chr2_seq]> ∅ |}.

(** A reader for the contigs [chr2; chr1], both cached. *)
Definition chr2_then_chr1 : InMemoryFastaReader :=
  {| contigs_ := [chr2_contig; chr1_contig];
     seqs_ := <["chr2" := chr2_seq]> (<["chr1" := chr1_seq]> ∅) |}.

Definition query (n : string) (s e : Z) : Range :=
  {| reference_name := n; start := s; end_ := e |}.

(** * Properties *)

(** ** Machine arithmetic *)

Lemma wrap_int64_id (z : Z) : in_int64 z -> wrap_int64 z = z.
Proof.
  unfold in_int64, wrap_int64. intros Hz.
  rewrite Z.mod_small; lia.
Qed.

Lemma to_size_t_id (z : Z) : 0 <= z < 2 ^ 64 -> to_size_t z = z.
Proof. unfold to_size_t. intros Hz. now apply Z.mod_small. Qed.

(** The length of a region whose bounds are ordered is computed
    exactly. *)
Lemma region_len_exact (a b : Z) :
  in_int64 a -> in_int64 b -> a <= b ->
  to_size_t (int64_sub b a) = b - a.
Proof.
  unfold in_int64. intros Ha Hb Hab. unfold int64_sub.
  destruct (Z.le_gt_cases 0 a) as [Hpos | Hneg].
  - rewrite wrap_int64_id by (unfold in_int64; lia).
    apply to_size_t_id. lia.
  - unfold to_size_t, wrap_int64.
    rewrite Zminus_mod_idemp_l.
    replace (b - a + 2 ^ 63 - 2 ^ 63) with (b - a) by lia.
    apply Z.mod_small. lia.
Qed.

Lemma size_t_incr_small (n : N) :
  (n + 1 < 2 ^ 64)%N -> size_t_incr n = (n + 1)%N.
Proof. unfold size_t_incr. intros Hn. now apply N.mod_small. Qed.

(** ** Strings *)

Lemma empty_string_spec (s : string) :
  empty_string s = false <-> s <> EmptyString.
Proof. destruct s; simpl; split; congruence. Qed.

Lemma substring_all (s : string) : substring 0 (String.length s) s = s.
Proof. induction s as [| c s IH]; simpl; [reflexivity | now rewrite IH]. Qed.

Lemma substring_length (s : string) (n m : nat) :
  (n + m <= String.length s)%nat -> String.length (substring n m s) = m.
Proof.
  revert n m. induction s as [| c s IH]; intros n m Hle; simpl in Hle.
  - assert (n = 0%nat) by lia. assert (m = 0%nat) by lia. now subst.
  - destruct n as [| n]; simpl.
    + destruct m as [| m]; simpl; [reflexivity |].
      f_equal. apply (IH 0%nat). lia.
    + apply IH. lia.
Qed.

Lemma substring_empty (s : string) (n : nat) :
  (n <= String.length s)%nat -> substring n 0 s = EmptyString.
Proof.
  revert n. induction s as [| c s IH]; intros n Hle; simpl in Hle.
  - now destruct n.
  - destruct n as [| n]; simpl; [reflexivity |]. apply IH. lia.
Qed.

(** [substr] inside the string copies exactly [len] characters. *)
Lemma substr_inside (s : string) (pos len : Z) :
  0 <= pos -> 0 <= len -> pos + len <= Z.of_nat (String.length s) ->
  substr s pos len = Returns (substring (Z.to_nat pos) (Z.to_nat len) s).
Proof.
  intros Hpos Hlen Hin. unfold substr.
  destruct (Z.ltb_spec (Z.of_nat (String.length s)) pos) as [Hlt | _];
    [lia |].
  now rewrite Z.min_l by lia.
Qed.

(** ** The loop of [Create] *)

Section CreateLoop.
Implicit Types (e : ReferenceSequence) (seqs pre post : list ReferenceSequence).
Implicit Types (m : gmap string ReferenceSequence) (k : string).

Lemma malformed_check e :
  empty_string (reference_name (region e))
  || (start (region e) <? 0) || (start (region e) >? end_ (region e))
  = false <-> I1 e.
Proof.
  unfold I1. rewrite !orb_false_iff, empty_string_spec.
  rewrite Z.ltb_ge, Z.gtb_ltb, Z.ltb_ge. tauto.
Qed.

Lemma length_check e :
  region_typed (region e) -> I1 e ->
  negb (to_size_t (int64_sub (end_ (region e)) (start (region e)))
        =? Z.of_nat (String.length (bases e))) = false <-> I2 e.
Proof.
  intros [Hs He] [_ Hord]. unfold I2.
  rewrite region_len_exact by tauto.
  rewrite negb_false_iff, Z.eqb_eq. split; congruence.
Qed.

Lemma Create_loop_accept e seqs m :
  region_typed (region e) -> I1 e -> I2 e ->
  m !! reference_name (region e) = None ->
  Create_loop (e :: seqs) m
  = Create_loop seqs (<[reference_name (region e) := e]> m).
Proof.
  intros Ht H1 H2 Hfree. simpl.
  rewrite (proj2 (malformed_check e) H1).
  rewrite (proj2 (length_check e Ht H1) H2).
  unfold emplace. now rewrite Hfree.
Qed.

Lemma Create_loop_reject e seqs m :
  region_typed (region e) ->
  ~ I1 e \/ ~ I2 e \/ is_Some (m !! reference_name (region e)) ->
  exists msg, Create_loop (e :: seqs) m = Error InvalidArgument msg.
Proof.
  intros Ht Hbad. simpl.
  destruct (empty_string _ || _ || _) eqn:Hshape; [eauto |].
  apply malformed_check in Hshape.
  destruct (negb _) eqn:Hlen; [eauto |].
  apply (length_check e Ht Hshape) in Hlen.
  destruct Hbad as [Hbad | [Hbad | [v Hv]]]; [tauto | tauto |].
  unfold emplace. rewrite Hv. simpl. eauto.
Qed.

(** The three ways the loop rejects the sequence it stands on, each with
    the message of its [return]. *)
Lemma Create_loop_malformed e seqs m :
  ~ I1 e ->
  Create_loop (e :: seqs) m
  = Error InvalidArgument [Text "Malformed region "; Debug (region e)].
Proof.
  intros Hbad. simpl.
  destruct (empty_string _ || _ || _) eqn:Hshape; [reflexivity |].
  apply malformed_check in Hshape. tauto.
Qed.

Lemma Create_loop_size_mismatch e seqs m :
  region_typed (region e) -> I1 e -> ~ I2 e ->
  Create_loop (e :: seqs) m
  = Error InvalidArgument
      [Text "Region size = "; Num (end_ (region e) - start (region e));
       Text " not equal to bases.length() ";
       Num (Z.of_nat (String.length (bases e)))].
Proof.
  intros Ht H1 Hbad. simpl.
  rewrite (proj2 (malformed_check e) H1).
  destruct (negb _) eqn:Hlen.
  - destruct Ht as [Hs He]. destruct H1 as [_ Hord].
    now rewrite region_len_exact by tauto.
  - apply (length_check e Ht H1) in Hlen. tauto.
Qed.

Lemma Create_loop_name_taken e seqs m :
  region_typed (region e) -> I1 e -> I2 e ->
  is_Some (m !! reference_name (region e)) ->
  Create_loop (e :: seqs) m
  = Error InvalidArgument
      [Text "Each ReferenceSequence must be on a different chromosome but multiple ones were found on ";
       Text (reference_name (region e))].
Proof.
  intros Ht H1 H2 [v Hv]. simpl.
  rewrite (proj2 (malformed_check e) H1).
  rewrite (proj2 (length_check e Ht H1) H2).
  unfold emplace. now rewrite Hv.
Qed.

(** Every failure of the loop carries [InvalidArgument]. *)
Lemma Create_loop_error seqs m c msg :
  Create_loop seqs m = Error c msg -> c = InvalidArgument.
Proof.
  revert m. induction seqs as [| e seqs IH]; intros m; simpl; [discriminate |].
  destruct (empty_string _ || _ || _); [congruence |].
  destruct (negb (_ =? _)); [congruence |].
  destruct (negb (snd _)); [congruence | apply IH].
Qed.

Lemma Create_loop_app pre post m :
  Create_loop (pre ++ post) m
  = match Create_loop pre m with
    | Ok m' => Create_loop post m'
    | Error c msg => Error c msg
    end.
Proof.
  revert m. induction pre as [| e pre IH]; intros m; simpl; [reflexivity |].
  destruct (empty_string _ || _ || _); [reflexivity |].
  destruct (negb (_ =? _)); [reflexivity |].
  destruct (negb (snd _)); [reflexivity | apply IH].
Qed.

Lemma insert_all_snoc seqs e m :
  insert_all (seqs ++ [e]) m
  = <[reference_name (region e) := e]> (insert_all seqs m).
Proof. unfold insert_all. now rewrite fold_left_app. Qed.

Lemma insert_all_is_Some seqs m k :
  is_Some (insert_all seqs m !! k) <-> k ∈ names seqs \/ is_Some (m !! k).
Proof.
  revert m. induction seqs as [| e seqs IH]; intros m; simpl.
  - unfold names; simpl. rewrite elem_of_nil. tauto.
  - change (insert_all (e :: seqs) m)
      with (insert_all seqs (<[reference_name (region e) := e]> m)).
    rewrite IH, elem_of_cons, lookup_insert_is_Some.
    destruct (decide (reference_name (region e) = k)) as [Heq | Hne];
      intuition congruence.
Qed.

Lemma insert_all_lookup seqs m e :
  NoDup (names seqs) -> e ∈ seqs ->
  insert_all seqs m !! reference_name (region e) = Some e.
Proof.
  induction seqs as [| e' seqs IH] using rev_ind; intros Hnd Hin.
  - now apply elem_of_nil in Hin.
  - rewrite insert_all_snoc.
    unfold names in Hnd. rewrite fmap_app in Hnd. simpl in Hnd.
    apply NoDup_app in Hnd as (Hnd & Hfresh & _).
    apply elem_of_app in Hin as [Hin | Hin].
    + rewrite lookup_insert_ne; [now apply IH |].
      intros Heq. apply (Hfresh (reference_name (region e))).
      * unfold names. apply list_elem_of_fmap. eauto.
      * rewrite <- Heq. apply list_elem_of_singleton. reflexivity.
    + apply list_elem_of_singleton in Hin as ->. apply lookup_insert_eq.
Qed.

(** A scan in which nothing violates an invariant is accepted whole.
    [before] are the sequences already in the map. *)
Lemma Create_loop_clean seqs before m :
  Forall (fun e => region_typed (region e)) seqs ->
  (forall k, is_Some (m !! k) <-> k ∈ names before) ->
  (forall pre e post,
      seqs = pre ++ e :: post -> ~ violates (before ++ pre) e) ->
  Create_loop seqs m = Ok (insert_all seqs m).
Proof.
  revert before m. induction seqs as [| e seqs IH];
    intros before m Htyped Hdom Hclean; [reflexivity |].
  apply Forall_cons in Htyped as [Ht Htyped].
  assert (Hhead : ~ violates before e).
  { specialize (Hclean [] e seqs eq_refl). now rewrite app_nil_r in Hclean. }
  unfold violates in Hhead.
  destruct (decide (I1 e)) as [H1 | H1]; [| tauto].
  destruct (decide (I2 e)) as [H2 | H2]; [| tauto].
  assert (Hfree : m !! reference_name (region e) = None).
  { apply eq_None_not_Some. rewrite Hdom. tauto. }
  rewrite Create_loop_accept by assumption.
  apply (IH (before ++ [e])); [assumption | |].
  - intros k. rewrite lookup_insert_is_Some, Hdom.
    unfold names. rewrite fmap_app, elem_of_app. simpl.
    rewrite list_elem_of_singleton.
    destruct (decide (reference_name (region e) = k));
      intuition congruence.
  - intros pre e' post ->. rewrite <- app_assoc. simpl.
    now apply (Hclean (e :: pre) e' post).
Qed.
End CreateLoop.

(** Closes a goal in which the loop is assumed to have accepted a
    sequence that it rejects; [tac] shows why it is rejected. *)
Ltac rejected_in Hrun tac :=
  match type of Hrun with
  | Create_loop (?e :: ?seqs) ?m = _ =>
    let msg := fresh "msg" in
    let Hmsg := fresh "Hmsg" in
    destruct (Create_loop_reject e seqs m) as [msg Hmsg];
    [assumption | tac | rewrite Hmsg in Hrun; discriminate]
  end.

(** ** What [Create] establishes *)

Lemma Create_loop_inv (seqs : list ReferenceSequence)
    (m m' : gmap string ReferenceSequence) :
  Forall (fun e => region_typed (region e)) seqs ->
  store_inv m -> Create_loop seqs m = Ok m' -> store_inv m'.
Proof.
  revert m. induction seqs as [| e seqs IH]; intros m Htyped Hinv Hrun.
  - simpl in Hrun. now inversion Hrun; subst.
  - apply Forall_cons in Htyped as [Ht Htyped].
    destruct (decide (I1 e)) as [H1 | H1];
      [| rejected_in Hrun ltac:(tauto)].
    destruct (decide (I2 e)) as [H2 | H2];
      [| rejected_in Hrun ltac:(tauto)].
    destruct (m !! reference_name (region e)) as [v |] eqn:Hfree;
      [rejected_in Hrun ltac:(right; right; rewrite Hfree; eauto) |].
    rewrite Create_loop_accept in Hrun by assumption.
    eapply (IH _ Htyped); [| exact Hrun].
    intros k e' Hk. apply lookup_insert_Some in Hk as [[<- <-] | [_ Hk]].
    + tauto.
    + now apply Hinv.
Qed.

Lemma Create_store_inv (contigs : list ContigInfo)
    (seqs : list ReferenceSequence) (st : InMemoryFastaReader) :
  Forall (fun e => region_typed (region e)) seqs ->
  Create contigs seqs = Ok st -> store_inv (seqs_ st).
Proof.
  unfold Create. intros Htyped Hrun.
  destruct (Create_loop seqs ∅) as [m |] eqn:Hloop; [| discriminate].
  inversion Hrun; subst; simpl.
  apply (Create_loop_inv seqs ∅ m Htyped); [| exact Hloop].
  intros k e Hk. now rewrite lookup_empty in Hk.
Qed.

(** Valid input is a clean scan. *)
Lemma valid_scan_clean (seqs : list ReferenceSequence) :
  Forall I1 seqs -> Forall I2 seqs -> I3 seqs -> scan_clean seqs.
Proof.
  intros H1 H2 H3 pre e post ->.
  apply Forall_app in H1 as [_ H1]. apply Forall_cons in H1 as [H1 _].
  apply Forall_app in H2 as [_ H2]. apply Forall_cons in H2 as [H2 _].
  unfold I3, names in H3. rewrite fmap_app in H3.
  apply NoDup_app in H3 as (_ & Hfresh & _).
  intros [Hbad | [Hbad | Hdup]]; [tauto | tauto |].
  apply (Hfresh _ Hdup). rewrite fmap_cons. apply elem_of_cons. now left.
Qed.

Lemma Create_clean (contigs : list ContigInfo) (seqs : list ReferenceSequence) :
  Forall (fun e => region_typed (region e)) seqs -> scan_clean seqs ->
  Create contigs seqs
  = Ok {| contigs_ := contigs; seqs_ := insert_all seqs ∅ |}.
Proof.
  intros Htyped Hclean. unfold Create.
  rewrite (Create_loop_clean seqs [] ∅ Htyped); [reflexivity | |].
  - intros k. rewrite lookup_empty. unfold names; simpl.
    rewrite elem_of_nil. split; [intros [? ?]; discriminate | tauto].
  - intros pre e post Heq. simpl. now apply (Hclean pre e post).
Qed.

(** ** [GetBases] on a query inside the cached region *)

Lemma IsValidInterval_spec (range : Range) :
  IsValidInterval range = true
  <-> reference_name range <> EmptyString /\ 0 <= start range <= end_ range.
Proof.
  unfold IsValidInterval. rewrite !andb_true_iff, negb_true_iff.
  rewrite empty_string_spec, !Z.leb_le. tauto.
Qed.

Lemma GetBases_inside (st : InMemoryFastaReader) (range : Range)
    (entry : ReferenceSequence) :
  store_inv (seqs_ st) ->
  IsValidInterval range = true ->
  seqs_ st !! reference_name range = Some entry ->
  start (region entry) <= start range ->
  end_ range <= end_ (region entry) ->
  GetBases st range
  = Returns (Ok (substring (Z.to_nat (start range - start (region entry)))
                           (Z.to_nat (end_ range - start range))
                           (bases entry))).
Proof.
  intros Hinv Hvalid Hentry Hlo Hhi.
  destruct (Hinv _ _ Hentry) as (_ & [Hts Hte] & [_ Hord] & Hlen).
  unfold GetBases, map_at. rewrite Hvalid, Hentry. simpl.
  apply IsValidInterval_spec in Hvalid as [_ Hq].
  unfold in_int64 in Hts, Hte. unfold I2 in Hlen.
  destruct (Z.ltb_spec (start range) (start (region entry))); [lia |].
  rewrite Z.gtb_ltb.
  destruct (Z.ltb_spec (end_ (region entry)) (end_ range)); [lia |].
  simpl. unfold int64_sub.
  rewrite !wrap_int64_id by (unfold in_int64; lia).
  rewrite !to_size_t_id by lia.
  rewrite substr_inside by lia. reflexivity.
Qed.

Lemma scan_clean_prefix (pre post : list ReferenceSequence) :
  scan_clean (pre ++ post) -> scan_clean pre.
Proof.
  intros Hclean pre' e post' ->.
  apply (Hclean pre' e (post' ++ post)).
  now rewrite <- app_assoc.
Qed.

Lemma scan_clean_NoDup (seqs : list ReferenceSequence) :
  scan_clean seqs -> NoDup (names seqs).
Proof.
  induction seqs as [| e seqs IH] using rev_ind; intros Hclean.
  - apply NoDup_nil_2.
  - unfold names. rewrite fmap_app. apply NoDup_app. split; [| split].
    + apply IH. now apply (scan_clean_prefix seqs [e]).
    + intros k Hin Hlast. simpl in Hlast.
      apply list_elem_of_singleton in Hlast as ->.
      apply (Hclean seqs e [] eq_refl). right; right. exact Hin.
    + simpl. apply NoDup_singleton.
Qed.

Lemma insert_all_lookup_Some (seqs : list ReferenceSequence) (k : string)
    (e : ReferenceSequence) :
  NoDup (names seqs) ->
  insert_all seqs ∅ !! k = Some e
  <-> e ∈ seqs /\ reference_name (region e) = k.
Proof.
  intros Hnd. split.
  - intros Hk.
    assert (Hin : k ∈ names seqs).
    { destruct (proj1 (insert_all_is_Some seqs ∅ k)) as [Hin | [v Hv]];
        [eauto | exact Hin | now rewrite lookup_empty in Hv]. }
    unfold names in Hin. apply list_elem_of_fmap in Hin as (e' & -> & He').
    rewrite (insert_all_lookup seqs ∅ e' Hnd He') in Hk.
    inversion Hk; subst. tauto.
  - intros [Hin <-]. now apply insert_all_lookup.
Qed.

(** ** Construction *)

(** C1 (round trip).  For every contig list and every sequence list whose
    regions hold [int64] bounds and which satisfies I1, I2 and I3,
    [Create] succeeds, and on the store it returns [GetBases] of the
    region of every input sequence returns exactly the bases of that
    sequence. *)
Theorem Create_GetBases_round_trip
    (contigs : list ContigInfo) (seqs : list ReferenceSequence) :
  Forall (fun e => region_typed (region e)) seqs ->
  Forall I1 seqs -> Forall I2 seqs -> I3 seqs ->
  exists st,
    Create contigs seqs = Ok st
    /\ forall e, e ∈ seqs -> GetBases st (region e) = Returns (Ok (bases e)).
Proof.
  intros Htyped H1 H2 H3.
  pose proof (valid_scan_clean seqs H1 H2 H3) as Hclean.
  pose proof (Create_clean contigs seqs Htyped Hclean) as Hrun.
  eexists. split; [exact Hrun |].
  intros e Hin.
  pose proof (Create_store_inv _ _ _ Htyped Hrun) as Hinv.
  rewrite Forall_forall in H1, H2.
  destruct (H1 e Hin) as [Hname Hord]. pose proof (H2 e Hin) as Hlen.
  unfold I2 in Hlen.
  rewrite (GetBases_inside _ (region e) e Hinv).
  - rewrite Z.sub_diag, <- Hlen, Nat2Z.id. simpl (Z.to_nat 0).
    now rewrite substring_all.
  - apply IsValidInterval_spec. tauto.
  - simpl. now apply insert_all_lookup.
  - lia.
  - lia.
Qed.

(** C2 (scan order of the checks).  [Create] scans the sequences in input
    order.  If the scan reaches a sequence [e] that violates a
    construction invariant (malformed region, length mismatch, or a name
    already taken by an earlier sequence) after a prefix [pre] without
    violation, [Create] fails with [InvalidArgument], and the message is
    that of the first check [e] fails: the malformed region of [e], or
    the two sizes of [e], or the reference name of [e], which an earlier
    sequence of [pre] holds in the map.  At that point the loop has
    accepted the whole of [pre], every sequence of which is in the map
    under its name, and nothing after [e] has been looked at: the
    outcome is the same whatever follows [e].  If no sequence violates
    an invariant, [Create] succeeds. *)
Theorem Create_fails_at_first_violation
    (contigs : list ContigInfo) (seqs : list ReferenceSequence) :
  Forall (fun e => region_typed (region e)) seqs ->
  (forall pre e post,
      seqs = pre ++ e :: post -> scan_clean pre -> violates pre e ->
      (exists msg, Create contigs seqs = Error InvalidArgument msg)
      /\ (~ I1 e ->
          Create contigs seqs
          = Error InvalidArgument
              [Text "Malformed region "; Debug (region e)])
      /\ (I1 e -> ~ I2 e ->
          Create contigs seqs
          = Error InvalidArgument
              [Text "Region size = ";
               Num (end_ (region e) - start (region e));
               Text " not equal to bases.length() ";
               Num (Z.of_nat (String.length (bases e)))])
      /\ (I1 e -> I2 e ->
          Create contigs seqs
          = Error InvalidArgument
              [Text "Each ReferenceSequence must be on a different chromosome but multiple ones were found on ";
               Text (reference_name (region e))]
          /\ exists first,
               first ∈ pre
               /\ reference_name (region first) = reference_name (region e)
               /\ insert_all pre ∅ !! reference_name (region e)
                  = Some first)
      /\ Create_loop pre ∅ = Ok (insert_all pre ∅)
      /\ (forall e', e' ∈ pre ->
            insert_all pre ∅ !! reference_name (region e') = Some e')
      /\ (forall post',
            Create contigs (pre ++ e :: post') = Create contigs seqs))
  /\ (scan_clean seqs -> exists st, Create contigs seqs = Ok st).
Proof.
  intros Htyped. split.
  - intros pre e post -> Hclean Hbad.
    apply Forall_app in Htyped as [Hpre Hrest].
    apply Forall_cons in Hrest as [He _].
    assert (Hloop : Create_loop pre ∅ = Ok (insert_all pre ∅)).
    { apply (Create_loop_clean pre [] ∅ Hpre).
      - intros k. rewrite lookup_empty. unfold names; simpl.
        rewrite elem_of_nil. split; [intros [? ?]; discriminate | tauto].
      - intros pre' e' post' Heq. simpl. now apply (Hclean pre' e' post'). }
    pose proof (scan_clean_NoDup pre Hclean) as Hnd.
    assert (Hrun : forall rest,
               Create contigs (pre ++ e :: rest)
               = match Create_loop (e :: rest) (insert_all pre ∅) with
                 | Ok m => Ok {| contigs_ := contigs; seqs_ := m |}
                 | Error c msg => Error c msg
                 end).
    { intros rest. unfold Create. now rewrite Create_loop_app, Hloop. }
    assert (Htaken : I1 e -> I2 e ->
                     is_Some (insert_all pre ∅ !! reference_name (region e))).
    { intros H1 H2. destruct Hbad as [Hbad | [Hbad | Hdup]]; [tauto | tauto |].
      apply insert_all_is_Some. now left. }
    assert (Hany : forall rest, exists msg,
               Create_loop (e :: rest) (insert_all pre ∅)
               = Error InvalidArgument msg
               /\ forall rest',
                    Create_loop (e :: rest') (insert_all pre ∅)
                    = Error InvalidArgument msg).
    { intros rest.
      destruct (decide (I1 e)) as [H1 | H1];
        [destruct (decide (I2 e)) as [H2 | H2] |].
      - eexists. split; [| intros rest'];
          apply Create_loop_name_taken; auto.
      - eexists. split; [| intros rest'];
          apply Create_loop_size_mismatch; auto.
      - eexists. split; [| intros rest'];
          apply Create_loop_malformed; auto. }
    split; [| split; [| split; [| split; [| split; [| split]]]]].
    + destruct (Hany post) as (msg & Hmsg & _).
      exists msg. now rewrite Hrun, Hmsg.
    + intros H1. now rewrite Hrun, Create_loop_malformed.
    + intros H1 H2. now rewrite Hrun, Create_loop_size_mismatch.
    + intros H1 H2. split.
      * rewrite Hrun, Create_loop_name_taken; auto.
      * destruct (Htaken H1 H2) as [first Hfirst].
        exists first.
        apply (insert_all_lookup_Some pre _ _ Hnd) in Hfirst.
        destruct Hfirst as [Hin Hname].
        repeat split; try assumption.
        rewrite <- Hname. now apply insert_all_lookup.
    + exact Hloop.
    + intros e' Hin. now apply insert_all_lookup.
    + intros post'. rewrite !Hrun.
      destruct (Hany post) as (msg & Hmsg & Hall).
      now rewrite Hmsg, (Hall post').
  - intros Hclean. eexists. now apply Create_clean.
Qed.

(** C8 (I4 is not checked).  Whatever the contig list, [Create] succeeds
    on every sequence list that satisfies I1, I2 and I3 (with [int64]
    bounds), and the store keeps the contig list as given; whether
    [Create] fails, and with which code and message, is the same for any
    two contig lists. *)
Theorem Create_ignores_contigs
    (contigs contigs' : list ContigInfo) (seqs : list ReferenceSequence) :
  (Forall (fun e => region_typed (region e)) seqs ->
   Forall I1 seqs -> Forall I2 seqs -> I3 seqs ->
   exists st, Create contigs seqs = Ok st /\ contigs_ st = contigs)
  /\ (forall c msg, Create contigs seqs = Error c msg
                    <-> Create contigs' seqs = Error c msg)
  /\ ((exists st, Create contigs seqs = Ok st)
      <-> (exists st', Create contigs' seqs = Ok st')).
Proof.
  split; [| split].
  - intros Htyped H1 H2 H3. eexists. split.
    + apply Create_clean; [assumption |]. now apply valid_scan_clean.
    + reflexivity.
  - intros c msg. unfold Create.
    destruct (Create_loop seqs ∅); split; congruence.
  - unfold Create.
    destruct (Create_loop seqs ∅); split; intros [st Hst];
      try discriminate; eauto.
Qed.

Lemma Create_GetBases_round_trip_witness :
  exists st,
    Create [chr1_contig; chr2_contig] [chr1_seq; chr2_seq] = Ok st
    /\ forall e, e ∈ [chr1_seq; chr2_seq] ->
         GetBases st (region e) = Returns (Ok (bases e)).
Proof. apply Create_GetBases_round_trip; compute_done. Defined.

(** The scan [chr1; chr2; chr1 again; a malformed region] stops at the
    third sequence, on the name [chr1], and never reports the malformed
    region after it; the scan [chr1; chr2] is accepted. *)
Lemma Create_fails_at_first_violation_witness :
  (Create [chr1_contig] [chr1_seq; chr2_seq; cached "chr1" 0 2 "AC";
                         cached "" 5 2 ""]
   = Error InvalidArgument
       [Text "Each ReferenceSequence must be on a different chromosome but multiple ones were found on ";
        Text "chr1"]
   /\ exists first,
        first ∈ [chr1_seq; chr2_seq]
        /\ reference_name (region first) = "chr1"
        /\ insert_all [chr1_seq; chr2_seq] ∅ !! "chr1" = Some first)
  /\ exists st, Create [chr1_contig] [chr1_seq; chr2_seq] = Ok st.
Proof.
  split.
  - refine (proj1 (proj2 (proj2 (proj2
              (proj1 (Create_fails_at_first_violation [chr1_contig]
                        [chr1_seq; chr2_seq; cached "chr1" 0 2 "AC";
                         cached "" 5 2 ""] _)
                 [chr1_seq; chr2_seq] (cached "chr1" 0 2 "AC")
                 [cached "" 5 2 ""] eq_refl _ _)))) _ _).
    + compute_done.
    + apply valid_scan_clean; compute_done.
    + compute_done.
    + compute_done.
    + compute_done.
  - refine (proj2 (Create_fails_at_first_violation [chr1_contig]
                     [chr1_seq; chr2_seq] _) _).
    + compute_done.
    + apply valid_scan_clean; compute_done.
Defined.

(** [chr1] is cached although only [chr2] is described, and [chr2] is
    described although it is not cached. *)
Lemma Create_ignores_contigs_witness :
  (exists st, Create [chr2_contig] [chr1_seq] = Ok st
              /\ contigs_ st = [chr2_contig])
  /\ (reference_name (region chr1_seq) ∉ name <$> [chr2_contig])
  /\ (name chr2_contig ∉ names [chr1_seq]).
Proof.
  split; [| split].
  - apply (proj1 (Create_ignores_contigs [chr2_contig] [] [chr1_seq]));
      compute_done.
  - compute_done.
  - compute_done.
Defined.

(** ** Range queries *)

(** C3 (contained query).  On a store built by [Create], a well-formed
    query whose reference name has an entry and which lies inside the
    region of that entry succeeds with the substring of the entry's
    bases at offset [query.start - entry.region.start] of length
    [query.end - query.start]: the result has exactly that length, and
    it is the empty string when [query.start = query.end]. *)
Theorem GetBases_contained
    (contigs : list ContigInfo) (seqs : list ReferenceSequence)
    (st : InMemoryFastaReader) (range : Range) (entry : ReferenceSequence) :
  Forall (fun e => region_typed (region e)) seqs ->
  Create contigs seqs = Ok st ->
  IsValidInterval range = true ->
  seqs_ st !! reference_name range = Some entry ->
  start (region entry) <= start range ->
  end_ range <= end_ (region entry) ->
  let offset := Z.to_nat (start range - start (region entry)) in
  let len := Z.to_nat (end_ range - start range) in
  GetBases st range = Returns (Ok (substring offset len (bases entry)))
  /\ String.length (substring offset len (bases entry)) = len
  /\ (start range = end_ range ->
      GetBases st range = Returns (Ok EmptyString)).
Proof.
  intros Htyped Hrun Hvalid Hentry Hlo Hhi offset len.
  pose proof (Create_store_inv _ _ _ Htyped Hrun) as Hinv.
  pose proof (GetBases_inside st range entry Hinv Hvalid Hentry Hlo Hhi)
    as Hget.
  destruct (Hinv _ _ Hentry) as (_ & _ & [_ Hord] & Hlen).
  apply IsValidInterval_spec in Hvalid as [_ Hq]. unfold I2 in Hlen.
  split; [exact Hget | split].
  - apply substring_length. subst offset len. lia.
  - intros Heq. rewrite Hget. do 2 f_equal.
    rewrite Heq, Z.sub_diag. apply substring_empty. lia.
Qed.

Lemma GetBases_contained_witness :
  GetBases chr1_only (query "chr1" 102 105) = Returns (Ok "GTT")
  /\ String.length "GTT" = 3%nat
  /\ (102 = 105 ->
      GetBases chr1_only (query "chr1" 102 105) = Returns (Ok EmptyString)).
Proof.
  apply (GetBases_contained [chr1_contig; chr2_contig] [chr1_seq] chr1_only
           (query "chr1" 102 105) chr1_seq).
  - compute_done.
  - reflexivity.
  - reflexivity.
  - reflexivity.
  - simpl. lia.
  - simpl. lia.
Defined.

(** C4 (containment is enforced).  For a well-formed query whose
    reference name has an entry, [GetBases] fails with [InvalidArgument]
    exactly when the query starts before the cached region or ends after
    it; the message then shows the query and the cached region, and such
    a query never yields a string, clipped or not. *)
Theorem GetBases_rejects_iff_not_contained
    (st : InMemoryFastaReader) (range : Range) (entry : ReferenceSequence) :
  IsValidInterval range = true ->
  seqs_ st !! reference_name range = Some entry ->
  ((exists msg, GetBases st range = Returns (Error InvalidArgument msg))
   <-> start range < start (region entry)
       \/ end_ range > end_ (region entry))
  /\ (start range < start (region entry)
      \/ end_ range > end_ (region entry) ->
      GetBases st range
      = Returns (Error InvalidArgument
                   [Text "Cannot query range="; Debug range;
                    Text " as this InMemoryFastaReader only has bases in the interval=";
                    Debug (region entry)])
      /\ forall s, GetBases st range <> Returns (Ok s)).
Proof.
  intros Hvalid Hentry.
  assert (Hrej : start range < start (region entry)
                 \/ end_ range > end_ (region entry) ->
                 GetBases st range
                 = Returns (Error InvalidArgument
                              [Text "Cannot query range="; Debug range;
                               Text " as this InMemoryFastaReader only has bases in the interval=";
                               Debug (region entry)])).
  { intros Hout. unfold GetBases, map_at. rewrite Hvalid, Hentry. simpl.
    destruct (Z.ltb_spec (start range) (start (region entry)));
      [reflexivity |].
    rewrite Z.gtb_ltb.
    destruct (Z.ltb_spec (end_ (region entry)) (end_ range));
      [reflexivity | lia]. }
  split; [split |].
  - intros [msg Hfail]. revert Hfail.
    unfold GetBases, map_at. rewrite Hvalid, Hentry. simpl.
    destruct (Z.ltb_spec (start range) (start (region entry)));
      [intros _; now left |].
    rewrite Z.gtb_ltb.
    destruct (Z.ltb_spec (end_ (region entry)) (end_ range));
      [intros _; right; lia |].
    simpl. destruct (substr _ _ _); simpl; discriminate.
  - intros Hout. eexists. exact (Hrej Hout).
  - intros Hout. split; [exact (Hrej Hout) |].
    intros s. rewrite (Hrej Hout). discriminate.
Qed.

(** [chr1] is cached on [[100, 108)]: the query [[90, 104)] overlaps it
    in part and is rejected. *)
Lemma GetBases_rejects_iff_not_contained_witness :
  ((exists msg,
       GetBases chr1_only (query "chr1" 90 104)
       = Returns (Error InvalidArgument msg))
   <-> 90 < 100 \/ 104 > 108)
  /\ (90 < 100 \/ 104 > 108 ->
      GetBases chr1_only (query "chr1" 90 104)
      = Returns (Error InvalidArgument
                   [Text "Cannot query range="; Debug (query "chr1" 90 104);
                    Text " as this InMemoryFastaReader only has bases in the interval=";
                    Debug (region chr1_seq)])
      /\ forall s, GetBases chr1_only (query "chr1" 90 104) <> Returns (Ok s)).
Proof.
  apply (GetBases_rejects_iff_not_contained chr1_only (query "chr1" 90 104)
           chr1_seq); reflexivity.
Defined.

(** C7, as the code has it.  For a well-formed query whose reference
    name has no entry in the store, [GetBases] returns no status at all:
    the lookup [seqs_.at] raises [std::out_of_range]. *)
Theorem GetBases_absent_contig_throws
    (st : InMemoryFastaReader) (range : Range) :
  IsValidInterval range = true ->
  seqs_ st !! reference_name range = None ->
  GetBases st range = Throws out_of_range.
Proof.
  intros Hvalid Habsent. unfold GetBases, map_at.
  now rewrite Hvalid, Habsent.
Qed.

Lemma GetBases_absent_contig_throws_witness :
  GetBases chr1_only (query "chr2" 0 4) = Throws out_of_range.
Proof.
  apply GetBases_absent_contig_throws; reflexivity.
Defined.

(** C7 fails as stated: [chr1_only] is a store built by [Create], the
    query [chr2:[0, 4)] is well formed and [chr2] has no entry, yet
    [GetBases] does not fail with [InvalidArgument], whatever the
    message. *)
Lemma GetBases_absent_contig_not_InvalidArgument :
  Create [chr1_contig; chr2_contig] [chr1_seq] = Ok chr1_only
  /\ IsValidInterval (query "chr2" 0 4) = true
  /\ seqs_ chr1_only !! reference_name (query "chr2" 0 4) = None
  /\ forall msg,
       GetBases chr1_only (query "chr2" 0 4)
       <> Returns (Error InvalidArgument msg).
Proof.
  split; [reflexivity | split; [reflexivity | split; [reflexivity |]]].
  intros msg. vm_compute. discriminate.
Qed.

(** ** One step of the iterable *)

Section NextStep.
Variable st : InMemoryFastaReader.
Variable it : FastaFullFileIterable.
Variable out : GenomeReferenceRecord.
Hypothesis alive : reader_ it = Some st.

Lemma Next_at_end :
  (N.of_nat (length (contigs_ st)) <= pos_ it)%N ->
  Next it out
  = {| returned := Returns (Ok false); iterable := it; record := out |}.
Proof.
  intros Hend. unfold Next, CheckIsAlive. rewrite alive.
  now rewrite (proj2 (N.leb_le _ _) Hend).
Qed.

Lemma Next_in_range (c : ContigInfo) :
  contigs_ st !! N.to_nat (pos_ it) = Some c ->
  Next it out
  = match seqs_ st !! name c with
    | None =>
      {| returned := Returns (Ok false); iterable := it; record := out |}
    | Some seq =>
      {| returned := Returns (Ok true);
         iterable := {| reader_ := reader_ it;
                        pos_ := size_t_incr (pos_ it) |};
         record := (name c, bases seq) |}
    end.
Proof.
  intros Hc. unfold Next, CheckIsAlive, vector_at. rewrite alive, Hc.
  apply lookup_lt_Some in Hc.
  destruct (N.leb_spec (N.of_nat (length (contigs_ st))) (pos_ it));
    [lia | reflexivity].
Qed.
End NextStep.

(** ** Full traversal *)

Lemma traverse_from (st : InMemoryFastaReader) (fuel i : nat)
    (out : GenomeReferenceRecord) :
  (N.of_nat (length (contigs_ st)) < 2 ^ 64)%N ->
  (length (contigs_ st) - i < fuel)%nat ->
  traverse fuel {| reader_ := Some st; pos_ := N.of_nat i |} out
  = (cached_prefix (seqs_ st) (drop i (contigs_ st)), NoMoreRecords).
Proof.
  intros Hsize. revert i out.
  induction fuel as [| fuel IH]; intros i out Hfuel; [lia |].
  cbn [traverse].
  destruct (le_lt_dec (length (contigs_ st)) i) as [Hend | Hin].
  - rewrite (Next_at_end st) by (simpl; first [reflexivity | lia]).
    simpl. now rewrite drop_ge.
  - destruct (lookup_lt_is_Some_2 (contigs_ st) i Hin) as [c Hc].
    rewrite (Next_in_range st {| reader_ := Some st; pos_ := N.of_nat i |}
               out eq_refl c)
      by (simpl; now rewrite Nat2N.id).
    rewrite (drop_S _ _ _ Hc). simpl.
    destruct (seqs_ st !! name c) as [seq |]; simpl; [| reflexivity].
    rewrite size_t_incr_small by lia.
    replace (N.of_nat i + 1)%N with (N.of_nat (S i)) by lia.
    rewrite IH by lia. reflexivity.
Qed.

(** [cached_prefix] is the longest prefix of cached contigs. *)
Lemma cached_prefix_longest (m : gmap string ReferenceSequence)
    (contigs : list ContigInfo) :
  exists k,
    Forall2 (emitted m) (take k contigs) (cached_prefix m contigs)
    /\ (k = length contigs
        \/ exists c, contigs !! k = Some c /\ m !! name c = None).
Proof.
  induction contigs as [| c contigs (k & Hrecs & Hstop)]; simpl.
  - exists 0%nat. split; [constructor | now left].
  - destruct (m !! name c) as [e |] eqn:Hc.
    + exists (S k). simpl. split.
      * constructor; [| exact Hrecs]. exists e. tauto.
      * destruct Hstop as [-> | Hstop]; [now left | now right].
    + exists 0%nat. simpl. split; [constructor |]. right. eauto.
Qed.

Lemma cached_prefix_all (m : gmap string ReferenceSequence)
    (contigs : list ContigInfo) :
  (forall c, c ∈ contigs -> is_Some (m !! name c)) ->
  Forall2 (emitted m) contigs (cached_prefix m contigs).
Proof.
  induction contigs as [| c contigs IH]; intros Hall; simpl.
  - constructor.
  - destruct (Hall c) as [e He]; [apply elem_of_cons; now left |].
    rewrite He. constructor.
    + exists e. tauto.
    + apply IH. intros c' Hc'. apply Hall. apply elem_of_cons. now right.
Qed.

(** ** The map does not remember the order of insertion *)

Lemma Create_loop_ok_valid (seqs : list ReferenceSequence)
    (m m' : gmap string ReferenceSequence) :
  Forall (fun e => region_typed (region e)) seqs ->
  Create_loop seqs m = Ok m' ->
  Forall I1 seqs /\ Forall I2 seqs /\ NoDup (names seqs)
  /\ forall k, k ∈ names seqs -> m !! k = None.
Proof.
  revert m. induction seqs as [| e seqs IH]; intros m Htyped Hrun.
  - repeat split; try constructor.
    intros k Hk. now apply elem_of_nil in Hk.
  - apply Forall_cons in Htyped as [Ht Htyped].
    destruct (decide (I1 e)) as [H1 | H1];
      [| rejected_in Hrun ltac:(tauto)].
    destruct (decide (I2 e)) as [H2 | H2];
      [| rejected_in Hrun ltac:(tauto)].
    destruct (m !! reference_name (region e)) as [v |] eqn:Hfree;
      [rejected_in Hrun ltac:(right; right; rewrite Hfree; eauto) |].
    rewrite Create_loop_accept in Hrun by assumption.
    destruct (IH _ Htyped Hrun) as (HI1 & HI2 & Hnd & Hnew).
    assert (Hfresh : reference_name (region e) ∉ names seqs).
    { intros Hin. specialize (Hnew _ Hin).
      now rewrite lookup_insert_eq in Hnew. }
    repeat split.
    + now constructor.
    + now constructor.
    + change (names (e :: seqs))
        with (reference_name (region e) :: names seqs).
      now apply NoDup_cons.
    + intros k Hk.
      change (names (e :: seqs))
        with (reference_name (region e) :: names seqs) in Hk.
      apply elem_of_cons in Hk as [-> | Hk]; [assumption |].
      specialize (Hnew _ Hk).
      apply lookup_insert_None in Hnew. tauto.
Qed.

Lemma insert_all_lookup_fresh (seqs : list ReferenceSequence)
    (m : gmap string ReferenceSequence) (k : string) :
  k ∉ names seqs -> insert_all seqs m !! k = m !! k.
Proof.
  revert m. induction seqs as [| e seqs IH]; intros m Hk; [reflexivity |].
  change (names (e :: seqs))
    with (reference_name (region e) :: names seqs) in Hk.
  apply not_elem_of_cons in Hk as [Hne Hk].
  change (insert_all (e :: seqs) m)
    with (insert_all seqs (<[reference_name (region e) := e]> m)).
  rewrite (IH _ Hk). now rewrite lookup_insert_ne by congruence.
Qed.

Lemma insert_all_Permutation (seqs seqs' : list ReferenceSequence)
    (m : gmap string ReferenceSequence) :
  NoDup (names seqs) -> seqs ≡ₚ seqs' ->
  insert_all seqs m = insert_all seqs' m.
Proof.
  intros Hnd Hperm.
  assert (Hnd' : NoDup (names seqs')).
  { unfold names in *. now rewrite <- Hperm. }
  apply map_eq. intros k.
  destruct (decide (k ∈ names seqs)) as [Hin | Hout].
  - unfold names in Hin. apply list_elem_of_fmap in Hin as (e & -> & He).
    rewrite (insert_all_lookup seqs m e Hnd He).
    symmetry. apply insert_all_lookup; [assumption |].
    now rewrite <- Hperm.
  - rewrite !insert_all_lookup_fresh; [reflexivity | | assumption].
    unfold names in *. now rewrite <- Hperm.
Qed.

Lemma Create_Permutation (contigs : list ContigInfo)
    (seqs seqs' : list ReferenceSequence) (st : InMemoryFastaReader) :
  Forall (fun e => region_typed (region e)) seqs ->
  seqs ≡ₚ seqs' ->
  Create contigs seqs = Ok st -> Create contigs seqs' = Ok st.
Proof.
  intros Htyped Hperm Hrun.
  assert (Hvalid : Forall I1 seqs /\ Forall I2 seqs /\ NoDup (names seqs)).
  { unfold Create in Hrun.
    destruct (Create_loop seqs ∅) as [m |] eqn:Hloop; [| discriminate].
    destruct (Create_loop_ok_valid seqs ∅ m Htyped Hloop) as (? & ? & ? & _).
    tauto. }
  destruct Hvalid as (H1 & H2 & H3).
  rewrite Create_clean in Hrun
    by (try assumption; now apply valid_scan_clean).
  rewrite Create_clean.
  - now rewrite <- (insert_all_Permutation seqs seqs' ∅ H3 Hperm).
  - now rewrite <- Hperm.
  - apply valid_scan_clean.
    + now rewrite <- Hperm.
    + now rewrite <- Hperm.
    + unfold I3, names in *. now rewrite <- Hperm.
Qed.

(** ** The iterable *)

(** C5 (early termination).  When the iterable stands on a contig that
    has no cached sequence, [Next] answers "no more records" at once and
    changes nothing, whatever the later contigs have.  Hence a full
    traversal of a store (of fewer than 2^64 contigs) ends with "no more
    records" after emitting exactly the records of the first [k] contigs,
    where all of these are cached and [k] is either the number of contigs
    or the index of the first contig that is not cached. *)
Theorem Next_stops_at_uncached_contig (st : InMemoryFastaReader) :
  (forall it out c,
      reader_ it = Some st ->
      contigs_ st !! N.to_nat (pos_ it) = Some c ->
      seqs_ st !! name c = None ->
      Next it out
      = {| returned := Returns (Ok false); iterable := it; record := out |})
  /\ ((N.of_nat (length (contigs_ st)) < 2 ^ 64)%N ->
      forall it out fuel,
        Iterate st = Ok it ->
        (length (contigs_ st) < fuel)%nat ->
        exists k recs,
          traverse fuel it out = (recs, NoMoreRecords)
          /\ Forall2 (emitted (seqs_ st)) (take k (contigs_ st)) recs
          /\ (k = length (contigs_ st)
              \/ exists c, contigs_ st !! k = Some c
                           /\ seqs_ st !! name c = None)).
Proof.
  split.
  - intros it out c Halive Hc Hnone.
    rewrite (Next_in_range st it out Halive c Hc). now rewrite Hnone.
  - intros Hsize it out fuel Hit Hfuel.
    unfold Iterate in Hit. inversion Hit; subst it.
    destruct (cached_prefix_longest (seqs_ st) (contigs_ st))
      as (k & Hrecs & Hstop).
    exists k, (cached_prefix (seqs_ st) (contigs_ st)).
    split; [| tauto].
    apply (traverse_from st fuel 0 out Hsize). lia.
Qed.

(** Contigs [chr1; chr2] with only [chr2] cached: the first call stops
    on [chr1], and the traversal emits the records of zero contigs. *)
Lemma Next_stops_at_uncached_contig_witness :
  Next {| reader_ := Some chr2_only; pos_ := 0 |} ("x", "y")
  = {| returned := Returns (Ok false);
       iterable := {| reader_ := Some chr2_only; pos_ := 0 |};
       record := ("x", "y") |}
  /\ exists k recs,
       traverse 3 {| reader_ := Some chr2_only; pos_ := 0 |} ("x", "y")
       = (recs, NoMoreRecords)
       /\ Forall2 (emitted (seqs_ chr2_only)) (take k (contigs_ chr2_only))
            recs
       /\ (k = length (contigs_ chr2_only)
           \/ exists c, contigs_ chr2_only !! k = Some c
                        /\ seqs_ chr2_only !! name c = None).
Proof.
  split.
  - apply (proj1 (Next_stops_at_uncached_contig chr2_only) _ _ chr1_contig);
      reflexivity.
  - apply (proj2 (Next_stops_at_uncached_contig chr2_only)).
    + reflexivity.
    + reflexivity.
    + simpl. lia.
Defined.

Example traverse_chr2_only :
  traverse 3 {| reader_ := Some chr2_only; pos_ := 0 |} ("x", "y")
  = ([], NoMoreRecords).
Proof. reflexivity. Qed.

(** C6 (iteration order).  On a store of fewer than 2^64 contigs, a call
    of [Next] on a cached contig emits [(contigs[i].name, entry.bases)]
    and moves the position from [i] to [i + 1].  When every contig is
    cached, a full traversal ends with "no more records" after emitting
    one record per contig, in the order of the contig list.  The store,
    and so the traversal, is the same for every order in which the
    sequences were given to [Create]. *)
Theorem traversal_follows_contig_order (st : InMemoryFastaReader) :
  (N.of_nat (length (contigs_ st)) < 2 ^ 64)%N ->
  (forall it out c e,
      reader_ it = Some st ->
      contigs_ st !! N.to_nat (pos_ it) = Some c ->
      seqs_ st !! name c = Some e ->
      Next it out
      = {| returned := Returns (Ok true);
           iterable := {| reader_ := reader_ it; pos_ := (pos_ it + 1)%N |};
           record := (name c, bases e) |})
  /\ (Forall (fun c => is_Some (seqs_ st !! name c)) (contigs_ st) ->
      forall it out fuel,
        Iterate st = Ok it ->
        (length (contigs_ st) < fuel)%nat ->
        exists recs,
          traverse fuel it out = (recs, NoMoreRecords)
          /\ Forall2 (emitted (seqs_ st)) (contigs_ st) recs)
  /\ (forall seqs seqs',
        Forall (fun e => region_typed (region e)) seqs ->
        seqs ≡ₚ seqs' ->
        Create (contigs_ st) seqs = Ok st ->
        Create (contigs_ st) seqs' = Ok st).
Proof.
  intros Hsize. split; [| split].
  - intros it out c e Halive Hc He.
    rewrite (Next_in_range st it out Halive c Hc), He.
    apply lookup_lt_Some in Hc.
    now rewrite size_t_incr_small by lia.
  - intros Hall it out fuel Hit Hfuel.
    unfold Iterate in Hit. inversion Hit; subst it.
    exists (cached_prefix (seqs_ st) (contigs_ st)). split.
    + apply (traverse_from st fuel 0 out Hsize). lia.
    + apply cached_prefix_all. now apply Forall_forall.
  - intros seqs seqs'. apply Create_Permutation.
Qed.

(** Contigs [chr2; chr1], both cached: [chr2] comes first, whichever
    sequence [Create] was given first. *)
Lemma traversal_follows_contig_order_witness :
  Next {| reader_ := Some chr2_then_chr1; pos_ := 0 |} ("x", "y")
  = {| returned := Returns (Ok true);
       iterable := {| reader_ := Some chr2_then_chr1; pos_ := 1 |};
       record := ("chr2", "GGCC") |}
  /\ (exists recs,
        traverse 3 {| reader_ := Some chr2_then_chr1; pos_ := 0 |} ("x", "y")
        = (recs, NoMoreRecords)
        /\ Forall2 (emitted (seqs_ chr2_then_chr1))
             (contigs_ chr2_then_chr1) recs)
  /\ Create [chr2_contig; chr1_contig] [chr2_seq; chr1_seq]
     = Ok chr2_then_chr1.
Proof.
  assert (Hsize : (N.of_nat (length (contigs_ chr2_then_chr1)) < 2 ^ 64)%N)
    by reflexivity.
  split; [| split].
  - apply (proj1 (traversal_follows_contig_order chr2_then_chr1 Hsize)
             {| reader_ := Some chr2_then_chr1; pos_ := 0 |} ("x", "y")
             chr2_contig chr2_seq); reflexivity.
  - apply (proj1 (proj2 (traversal_follows_contig_order chr2_then_chr1
                           Hsize))).
    + compute_done.
    + reflexivity.
    + simpl. lia.
  - apply (proj2 (proj2 (traversal_follows_contig_order chr2_then_chr1
                           Hsize)) [chr1_seq; chr2_seq]).
    + compute_done.
    + apply Permutation_swap.
    + reflexivity.
Defined.

Example traverse_chr2_then_chr1 :
  traverse 3 {| reader_ := Some chr2_then_chr1; pos_ := 0 |} ("x", "y")
  = ([("chr2", "GGCC"); ("chr1", "ACGTTGCA")], NoMoreRecords).
Proof. reflexivity. Qed.

(** C9 (the exhausted iterable is stable).  On a live iterable whose
    position is at or past the number of contigs, [Next] answers "no
    more records" and leaves the iterable and the output record as they
    were; so does every later call. *)
Theorem Next_exhausted_is_stable
    (st : InMemoryFastaReader) (it : FastaFullFileIterable)
    (out : GenomeReferenceRecord) :
  reader_ it = Some st ->
  (N.of_nat (length (contigs_ st)) <= pos_ it)%N ->
  Next it out
  = {| returned := Returns (Ok false); iterable := it; record := out |}
  /\ forall k,
       after_calls k it out = (it, out)
       /\ returned (Next (fst (after_calls k it out))
                         (snd (after_calls k it out)))
          = Returns (Ok false).
Proof.
  intros Halive Hend.
  pose proof (Next_at_end st it out Halive Hend) as Hstep.
  split; [exact Hstep |].
  assert (Hcalls : forall k, after_calls k it out = (it, out)).
  { induction k as [| k IH]; simpl; [reflexivity |].
    rewrite Hstep. simpl. exact IH. }
  intros k. split; [apply Hcalls |].
  rewrite Hcalls. simpl. now rewrite Hstep.
Qed.

Lemma Next_exhausted_is_stable_witness :
  Next {| reader_ := Some chr1_only; pos_ := 2 |} ("chr1", "ACGTTGCA")
  = {| returned := Returns (Ok false);
       iterable := {| reader_ := Some chr1_only; pos_ := 2 |};
       record := ("chr1", "ACGTTGCA") |}
  /\ forall k,
       after_calls k {| reader_ := Some chr1_only; pos_ := 2 |}
         ("chr1", "ACGTTGCA")
       = ({| reader_ := Some chr1_only; pos_ := 2 |}, ("chr1", "ACGTTGCA"))
       /\ returned
            (Next (fst (after_calls k
                          {| reader_ := Some chr1_only; pos_ := 2 |}
                          ("chr1", "ACGTTGCA")))
                  (snd (after_calls k
                          {| reader_ := Some chr1_only; pos_ := 2 |}
                          ("chr1", "ACGTTGCA"))))
          = Returns (Ok false).
Proof.
  apply (Next_exhausted_is_stable chr1_only).
  - reflexivity.
  - simpl. lia.
Defined.

(** C10 (the output record is written only with a record).  Whenever
    [Next] answers "no more records" the record behind [out] is what it
    was before the call; more generally it is unchanged by every call
    that does not answer "record produced".  Both causes of "no more
    records" are covered: a position at or past the end, and a current
    contig without a cached sequence. *)
Theorem Next_without_record_keeps_out
    (it : FastaFullFileIterable) (out : GenomeReferenceRecord) :
  (returned (Next it out) = Returns (Ok false) -> record (Next it out) = out)
  /\ (returned (Next it out) <> Returns (Ok true) ->
      record (Next it out) = out)
  /\ (forall st,
        reader_ it = Some st ->
        (N.of_nat (length (contigs_ st)) <= pos_ it)%N
        \/ (exists c, contigs_ st !! N.to_nat (pos_ it) = Some c
                      /\ seqs_ st !! name c = None) ->
        returned (Next it out) = Returns (Ok false)
        /\ record (Next it out) = out).
Proof.
  assert (Hkeep : returned (Next it out) <> Returns (Ok true) ->
                  record (Next it out) = out).
  { unfold Next.
    destruct (CheckIsAlive it); [| reflexivity].
    destruct (reader_ it) as [fasta_reader |]; [| reflexivity].
    destruct (N.of_nat (length (contigs_ fasta_reader)) <=? pos_ it)%N;
      [reflexivity |].
    destruct (vector_at (contigs_ fasta_reader) (pos_ it)) as [c | ex];
      [| reflexivity].
    destruct (seqs_ fasta_reader !! name c); simpl; [| reflexivity].
    intros Hne. now contradiction Hne. }
  split; [| split].
  - intros Hret. apply Hkeep. rewrite Hret. discriminate.
  - exact Hkeep.
  - intros st Halive [Hend | (c & Hc & Hnone)].
    + now rewrite (Next_at_end st it out Halive Hend).
    + rewrite (Next_in_range st it out Halive c Hc). now rewrite Hnone.
Qed.

Lemma Next_without_record_keeps_out_witness :
  record (Next {| reader_ := Some chr2_only; pos_ := 0 |} ("x", "y"))
  = ("x", "y")
  /\ record (Next {| reader_ := Some chr1_only; pos_ := 2 |} ("x", "y"))
     = ("x", "y").
Proof.
  split.
  - apply (proj1 (Next_without_record_keeps_out
                    {| reader_ := Some chr2_only; pos_ := 0 |} ("x", "y"))).
    reflexivity.
  - apply (proj1 (proj2 (Next_without_record_keeps_out
                           {| reader_ := Some chr1_only; pos_ := 2 |}
                           ("x", "y")))).
    vm_compute. discriminate.
Defined.

(** * Further properties of the reader *)

(** ** What a successful [Create] says of its input *)

Lemma Create_ok_valid (contigs : list ContigInfo)
    (seqs : list ReferenceSequence) (st : InMemoryFastaReader) :
  Forall (fun e => region_typed (region e)) seqs ->
  Create contigs seqs = Ok st ->
  Forall I1 seqs /\ Forall I2 seqs /\ I3 seqs
  /\ st = {| contigs_ := contigs; seqs_ := insert_all seqs ∅ |}.
Proof.
  intros Htyped Hrun.
  assert (Hvalid : Forall I1 seqs /\ Forall I2 seqs /\ NoDup (names seqs)).
  { unfold Create in Hrun.
    destruct (Create_loop seqs ∅) as [m |] eqn:Hloop; [| discriminate].
    destruct (Create_loop_ok_valid seqs ∅ m Htyped Hloop) as (? & ? & ? & _).
    tauto. }
  destruct Hvalid as (H1 & H2 & H3). repeat split; try assumption.
  rewrite Create_clean in Hrun
    by (try assumption; now apply valid_scan_clean).
  congruence.
Qed.

Lemma insert_all_size (seqs : list ReferenceSequence) :
  NoDup (names seqs) -> size (insert_all seqs ∅) = length seqs.
Proof.
  induction seqs as [| e seqs IH] using rev_ind; intros Hnd.
  - reflexivity.
  - unfold names in Hnd. rewrite fmap_app in Hnd.
    apply NoDup_app in Hnd as (Hnd & Hfresh & _).
    rewrite insert_all_snoc, length_app. simpl.
    rewrite map_size_insert_None.
    + rewrite (IH Hnd). lia.
    + rewrite insert_all_lookup_fresh by
        (intros Hin; apply (Hfresh _ Hin); simpl;
         apply list_elem_of_singleton; reflexivity).
      apply lookup_empty.
Qed.

(** X1.  For sequences with [int64] bounds, [Create] succeeds exactly
    when every sequence satisfies I1 and I2 and the reference names are
    pairwise distinct. *)
Theorem Create_succeeds_iff_valid
    (contigs : list ContigInfo) (seqs : list ReferenceSequence) :
  Forall (fun e => region_typed (region e)) seqs ->
  (exists st, Create contigs seqs = Ok st)
  <-> Forall I1 seqs /\ Forall I2 seqs /\ I3 seqs.
Proof.
  intros Htyped. split.
  - intros [st Hrun].
    destruct (Create_ok_valid contigs seqs st Htyped Hrun)
      as (? & ? & ? & _).
    tauto.
  - intros (H1 & H2 & H3). eexists.
    apply Create_clean; [assumption |]. now apply valid_scan_clean.
Qed.

Lemma Create_succeeds_iff_valid_witness :
  (exists st, Create [chr1_contig] [chr1_seq; chr2_seq] = Ok st)
  <-> Forall I1 [chr1_seq; chr2_seq] /\ Forall I2 [chr1_seq; chr2_seq]
      /\ I3 [chr1_seq; chr2_seq].
Proof. apply Create_succeeds_iff_valid. compute_done. Defined.


(** X3.  The reader returned by [Create] keeps the contig list as given
    and holds exactly the input sequences, each under its own reference
    name: a lookup of [k] finds [e] exactly when [e] is an input
    sequence named [k], and the map has as many entries as there were
    sequences. *)
Theorem Create_store_contents
    (contigs : list ContigInfo) (seqs : list ReferenceSequence)
    (st : InMemoryFastaReader) :
  Forall (fun e => region_typed (region e)) seqs ->
  Create contigs seqs = Ok st ->
  contigs_ st = contigs
  /\ (forall k e, seqs_ st !! k = Some e
                  <-> e ∈ seqs /\ reference_name (region e) = k)
  /\ size (seqs_ st) = length seqs.
Proof.
  intros Htyped Hrun.
  destruct (Create_ok_valid contigs seqs st Htyped Hrun)
    as (_ & _ & H3 & ->).
  simpl. split; [reflexivity | split].
  - intros k e. now apply insert_all_lookup_Some.
  - now apply insert_all_size.
Qed.

Lemma Create_store_contents_witness :
  contigs_ chr2_then_chr1 = [chr2_contig; chr1_contig]
  /\ (forall k e, seqs_ chr2_then_chr1 !! k = Some e
                  <-> e ∈ [chr1_seq; chr2_seq]
                      /\ reference_name (region e) = k)
  /\ size (seqs_ chr2_then_chr1) = length [chr1_seq; chr2_seq].
Proof.
  apply (Create_store_contents [chr2_contig; chr1_contig]
           [chr1_seq; chr2_seq] chr2_then_chr1).
  - compute_done.
  - reflexivity.
Defined.

(** X4.  Whether [Create] accepts a list does not depend on the order of
    its sequences, and the reader it returns is the same for every
    order; a list that is rejected is rejected in every order, always
    with [InvalidArgument].  The message is not part of this: it reports
    the first violation met and so changes with the order. *)
Theorem Create_outcome_Permutation
    (contigs : list ContigInfo) (seqs seqs' : list ReferenceSequence) :
  Forall (fun e => region_typed (region e)) seqs ->
  seqs ≡ₚ seqs' ->
  (forall st, Create contigs seqs = Ok st <-> Create contigs seqs' = Ok st)
  /\ ((exists msg, Create contigs seqs = Error InvalidArgument msg)
      <-> (exists msg', Create contigs seqs' = Error InvalidArgument msg')).
Proof.
  intros Htyped Hperm.
  assert (Htyped' : Forall (fun e => region_typed (region e)) seqs')
    by now rewrite <- Hperm.
  assert (Hperm' : seqs' ≡ₚ seqs) by now symmetry.
  assert (Hok : forall st,
             Create contigs seqs = Ok st <-> Create contigs seqs' = Ok st).
  { intros st. split.
    - now apply Create_Permutation.
    - now apply Create_Permutation. }
  split; [exact Hok |].
  assert (Hcases : forall l,
             (exists st, Create contigs l = Ok st)
             \/ exists msg, Create contigs l = Error InvalidArgument msg).
  { intros l. unfold Create.
    destruct (Create_loop l ∅) as [m | c msg] eqn:Hloop.
    - left. eauto.
    - right. exists msg. now rewrite (Create_loop_error l ∅ c msg Hloop). }
  split; intros [msg Hfail].
  - destruct (Hcases seqs') as [[st Hst] | Hmsg]; [| exact Hmsg].
    apply Hok in Hst. congruence.
  - destruct (Hcases seqs) as [[st Hst] | Hmsg]; [| exact Hmsg].
    apply Hok in Hst. congruence.
Qed.

(** A duplicate is rejected wherever it stands in the list. *)
Lemma Create_outcome_Permutation_witness :
  (forall st,
      Create [chr1_contig] [chr1_seq; chr2_seq; chr1_seq] = Ok st
      <-> Create [chr1_contig] [chr2_seq; chr1_seq; chr1_seq] = Ok st)
  /\ ((exists msg,
         Create [chr1_contig] [chr1_seq; chr2_seq; chr1_seq]
         = Error InvalidArgument msg)
      <-> (exists msg',
             Create [chr1_contig] [chr2_seq; chr1_seq; chr1_seq]
             = Error InvalidArgument msg')).
Proof.
  apply Create_outcome_Permutation.
  - compute_done.
  - apply Permutation_swap.
Defined.

(** The message does change with the order: the same three sequences,
    with the malformed one first or last. *)
Example Create_message_depends_on_order :
  Create [chr1_contig] [chr1_seq; chr1_seq; cached "" 5 2 ""]
  = Error InvalidArgument
      [Text "Each ReferenceSequence must be on a different chromosome but multiple ones were found on ";
       Text "chr1"]
  /\ Create [chr1_contig] [cached "" 5 2 ""; chr1_seq; chr1_seq]
     = Error InvalidArgument
         [Text "Malformed region "; Debug (region (cached "" 5 2 ""))].
Proof. split; reflexivity. Qed.

(** ** What the answers of [GetBases] say of the query *)

Lemma substring_app (s : string) (n m1 m2 : nat) :
  (n + m1 + m2 <= String.length s)%nat ->
  substring n (m1 + m2) s
  = (substring n m1 s ++ substring (n + m1) m2 s)%string.
Proof.
  revert n m1. induction s as [| c s IH]; intros n m1 Hle; simpl in Hle.
  - assert (n = 0%nat) by lia. assert (m1 = 0%nat) by lia.
    assert (m2 = 0%nat) by lia. now subst.
  - destruct n as [| n].
    + destruct m1 as [| m1]; [reflexivity |].
      change (String c (substring 0 (m1 + m2) s)
              = String c (substring 0 m1 s ++ substring (0 + m1) m2 s)%string).
      f_equal. apply (IH 0%nat m1). lia.
    + simpl. apply IH. lia.
Qed.

(** A returned string comes from an entry that contains the query. *)
Lemma GetBases_Ok_inside (st : InMemoryFastaReader) (range : Range)
    (s : string) :
  store_inv (seqs_ st) ->
  GetBases st range = Returns (Ok s) ->
  exists entry,
    seqs_ st !! reference_name range = Some entry
    /\ IsValidInterval range = true
    /\ start (region entry) <= start range
    /\ end_ range <= end_ (region entry)
    /\ s = substring (Z.to_nat (start range - start (region entry)))
                     (Z.to_nat (end_ range - start range)) (bases entry).
Proof.
  intros Hinv Hget.
  destruct (IsValidInterval range) eqn:Hvalid;
    [| unfold GetBases in Hget; rewrite Hvalid in Hget; discriminate].
  destruct (seqs_ st !! reference_name range) as [entry |] eqn:Hentry;
    [| unfold GetBases, map_at in Hget;
       rewrite Hvalid, Hentry in Hget; discriminate].
  destruct (Z.lt_ge_cases (start range) (start (region entry))) as [Hlo | Hlo];
    [| destruct (Z.lt_ge_cases (end_ (region entry)) (end_ range))
         as [Hhi | Hhi]].
  - unfold GetBases, map_at in Hget. rewrite Hvalid, Hentry in Hget.
    simpl in Hget. rewrite (proj2 (Z.ltb_lt _ _) Hlo) in Hget.
    discriminate.
  - unfold GetBases, map_at in Hget. rewrite Hvalid, Hentry in Hget.
    simpl in Hget. rewrite Z.gtb_ltb, (proj2 (Z.ltb_lt _ _) Hhi) in Hget.
    rewrite orb_true_r in Hget. discriminate.
  - rewrite (GetBases_inside st range entry Hinv Hvalid Hentry Hlo Hhi)
      in Hget.
    exists entry. repeat split; try assumption. congruence.
Qed.

(** X5.  On a reader built by [Create], a string returned by [GetBases]
    is never clipped or padded: the reference name of the query is
    cached, the query is well formed and lies inside the cached region,
    and the string is the part of the cached bases at offset
    [query.start - entry.start], of length exactly
    [query.end - query.start]. *)
Theorem GetBases_Ok_is_exact
    (contigs : list ContigInfo) (seqs : list ReferenceSequence)
    (st : InMemoryFastaReader) (range : Range) (s : string) :
  Forall (fun e => region_typed (region e)) seqs ->
  Create contigs seqs = Ok st ->
  GetBases st range = Returns (Ok s) ->
  exists entry,
    seqs_ st !! reference_name range = Some entry
    /\ entry ∈ seqs
    /\ 0 <= start (region entry) <= start range
    /\ start range <= end_ range <= end_ (region entry)
    /\ s = substring (Z.to_nat (start range - start (region entry)))
                     (Z.to_nat (end_ range - start range)) (bases entry)
    /\ Z.of_nat (String.length s) = end_ range - start range.
Proof.
  intros Htyped Hrun Hget.
  pose proof (Create_store_inv _ _ _ Htyped Hrun) as Hinv.
  destruct (GetBases_Ok_inside st range s Hinv Hget)
    as (entry & Hentry & Hvalid & Hlo & Hhi & ->).
  destruct (Hinv _ _ Hentry) as (_ & _ & [_ Hord] & Hlen).
  apply IsValidInterval_spec in Hvalid as [_ Hq]. unfold I2 in Hlen.
  exists entry. repeat split; try lia; try assumption.
  - destruct (Create_ok_valid contigs seqs st Htyped Hrun)
      as (_ & _ & H3 & ->).
    simpl in Hentry. now apply (insert_all_lookup_Some seqs) in Hentry.
  - rewrite substring_length by lia. lia.
Qed.

Lemma GetBases_Ok_is_exact_witness :
  exists entry,
    seqs_ chr1_only !! reference_name (query "chr1" 101 104) = Some entry
    /\ entry ∈ [chr1_seq]
    /\ 0 <= start (region entry) <= start (query "chr1" 101 104)
    /\ start (query "chr1" 101 104) <= end_ (query "chr1" 101 104)
       <= end_ (region entry)
    /\ "CGT"
       = substring
           (Z.to_nat (start (query "chr1" 101 104) - start (region entry)))
           (Z.to_nat (end_ (query "chr1" 101 104)
                      - start (query "chr1" 101 104)))
           (bases entry)
    /\ Z.of_nat (String.length "CGT")
       = end_ (query "chr1" 101 104) - start (query "chr1" 101 104).
Proof.
  apply (GetBases_Ok_is_exact [chr1_contig; chr2_contig] [chr1_seq]
           chr1_only).
  - compute_done.
  - reflexivity.
  - reflexivity.
Defined.

(** X6.  Answers concatenate: on a reader built by [Create], if
    [GetBases] returns [s1] for [[a, b)] and [s2] for [[b, c)] on the same
    reference name, it returns [s1 ++ s2] for [[a, c)]. *)
Theorem GetBases_adjacent_ranges_concatenate
    (contigs : list ContigInfo) (seqs : list ReferenceSequence)
    (st : InMemoryFastaReader) (n : string) (a b c : Z) (s1 s2 : string) :
  Forall (fun e => region_typed (region e)) seqs ->
  Create contigs seqs = Ok st ->
  GetBases st {| reference_name := n; start := a; end_ := b |}
  = Returns (Ok s1) ->
  GetBases st {| reference_name := n; start := b; end_ := c |}
  = Returns (Ok s2) ->
  GetBases st {| reference_name := n; start := a; end_ := c |}
  = Returns (Ok (s1 ++ s2)%string).
Proof.
  intros Htyped Hrun Hab Hbc.
  pose proof (Create_store_inv _ _ _ Htyped Hrun) as Hinv.
  destruct (GetBases_Ok_inside st _ s1 Hinv Hab)
    as (entry & Hentry & Hvab & Hlo & _ & ->).
  destruct (GetBases_Ok_inside st _ s2 Hinv Hbc)
    as (entry' & Hentry' & Hvbc & _ & Hhi & ->).
  simpl in *. rewrite Hentry in Hentry'. inversion Hentry'; subst entry'.
  destruct (Hinv _ _ Hentry) as (_ & _ & [_ Hord] & Hlen).
  apply IsValidInterval_spec in Hvab as [Hname Hab'].
  apply IsValidInterval_spec in Hvbc as [_ Hbc']. simpl in *.
  unfold I2 in Hlen.
  rewrite (GetBases_inside st _ entry Hinv); simpl;
    [| apply IsValidInterval_spec; simpl; split; [assumption | lia]
     | assumption | lia | lia].
  do 2 f_equal.
  replace (Z.to_nat (c - a)) with (Z.to_nat (b - a) + Z.to_nat (c - b))%nat
    by lia.
  replace (Z.to_nat (b - start (region entry)))
    with (Z.to_nat (a - start (region entry)) + Z.to_nat (b - a))%nat by lia.
  apply substring_app. lia.
Qed.

Lemma GetBases_adjacent_ranges_concatenate_witness :
  GetBases chr1_only {| reference_name := "chr1"; start := 100; end_ := 106 |}
  = Returns (Ok ("ACG" ++ "TTG")%string).
Proof.
  apply (GetBases_adjacent_ranges_concatenate [chr1_contig; chr2_contig]
           [chr1_seq] chr1_only "chr1" 100 103 106).
  - compute_done.
  - reflexivity.
  - reflexivity.
  - reflexivity.
Defined.

(** X7.  On a reader built by [Create], [GetBases] raises an exception
    exactly when the query is well formed and its reference name is not
    cached; the [substr] call never raises, and a malformed query on an
    absent name is answered with a status, the check coming before the
    lookup. *)
Theorem GetBases_throws_iff_absent
    (contigs : list ContigInfo) (seqs : list ReferenceSequence)
    (st : InMemoryFastaReader) (range : Range) :
  Forall (fun e => region_typed (region e)) seqs ->
  Create contigs seqs = Ok st ->
  (exists ex, GetBases st range = Throws ex)
  <-> IsValidInterval range = true
      /\ seqs_ st !! reference_name range = None.
Proof.
  intros Htyped Hrun.
  pose proof (Create_store_inv _ _ _ Htyped Hrun) as Hinv.
  split.
  - intros [ex Hthrow].
    destruct (IsValidInterval range) eqn:Hvalid;
      [| unfold GetBases in Hthrow; rewrite Hvalid in Hthrow; discriminate].
    split; [reflexivity |].
    destruct (seqs_ st !! reference_name range) as [entry |] eqn:Hentry;
      [| reflexivity].
    exfalso. unfold GetBases, map_at in Hthrow.
    rewrite Hvalid, Hentry in Hthrow. simpl in Hthrow.
    destruct (_ || _) eqn:Hout; [discriminate |].
    apply orb_false_iff in Hout as [Hlo Hhi].
    rewrite Z.gtb_ltb in Hhi. apply Z.ltb_ge in Hlo, Hhi.
    pose proof (GetBases_inside st range entry Hinv Hvalid Hentry Hlo Hhi)
      as Hget.
    unfold GetBases, map_at in Hget. rewrite Hvalid, Hentry in Hget.
    simpl in Hget.
    rewrite (proj2 (Z.ltb_ge _ _) Hlo), Z.gtb_ltb,
      (proj2 (Z.ltb_ge _ _) Hhi) in Hget.
    simpl in Hget. rewrite Hget in Hthrow. discriminate.
  - intros [Hvalid Habsent]. exists out_of_range.
    unfold GetBases, map_at. now rewrite Hvalid, Habsent.
Qed.

Lemma GetBases_throws_iff_absent_witness :
  (exists ex, GetBases chr1_only (query "chr2" 0 4) = Throws ex)
  <-> IsValidInterval (query "chr2" 0 4) = true
      /\ seqs_ chr1_only !! reference_name (query "chr2" 0 4) = None.
Proof.
  apply (GetBases_throws_iff_absent [chr1_contig; chr2_contig] [chr1_seq]).
  - compute_done.
  - reflexivity.
Defined.

(** X8.  On any reader, [GetBases] returns an error status exactly when
    the query is malformed, or its reference name is cached and the
    query reaches outside the cached region; the code is then
    [InvalidArgument]. *)
Theorem GetBases_error_iff
    (st : InMemoryFastaReader) (range : Range) (c : Code) :
  (exists msg, GetBases st range = Returns (Error c msg))
  <-> c = InvalidArgument
      /\ (IsValidInterval range = false
          \/ exists entry,
               seqs_ st !! reference_name range = Some entry
               /\ (start range < start (region entry)
                   \/ end_ range > end_ (region entry))).
Proof.
  unfold GetBases, map_at.
  destruct (IsValidInterval range) eqn:Hvalid; simpl.
  - destruct (seqs_ st !! reference_name range) as [entry |] eqn:Hentry;
      simpl.
    + rewrite Z.gtb_ltb.
      destruct (Z.ltb_spec (start range) (start (region entry))) as [Hlo | Hlo];
        [| destruct (Z.ltb_spec (end_ (region entry)) (end_ range))
             as [Hhi | Hhi]]; simpl.
      * split.
        -- intros [msg Heq]. inversion Heq. split; [reflexivity |].
           right. exists entry. tauto.
        -- intros [-> _]. eauto.
      * split.
        -- intros [msg Heq]. inversion Heq. split; [reflexivity |].
           right. exists entry. split; [reflexivity | lia].
        -- intros [-> _]. eauto.
      * split.
        -- intros [msg Heq]. revert Heq.
           destruct (substr _ _ _); simpl; discriminate.
        -- intros [_ [Hbad | (entry' & Heq & Hout)]]; [discriminate |].
           inversion Heq; subst entry'. lia.
    + split; [intros [msg Heq]; discriminate |].
      intros [_ [Hbad | (entry & Heq & _)]]; discriminate.
  - split.
    + intros [msg Heq]. inversion Heq. tauto.
    + intros [-> _]. eauto.
Qed.

(** X14.  Caching more sequences changes no answer: if [Create]
    accepts [seqs ++ more] it accepts [seqs], and every string that
    [GetBases] returns on the smaller reader is returned on the larger
    one for the same query. *)
Theorem Create_extension_preserves_GetBases
    (contigs : list ContigInfo) (seqs more : list ReferenceSequence)
    (st' : InMemoryFastaReader) :
  Forall (fun e => region_typed (region e)) (seqs ++ more) ->
  Create contigs (seqs ++ more) = Ok st' ->
  exists st,
    Create contigs seqs = Ok st
    /\ forall range s,
         GetBases st range = Returns (Ok s) ->
         GetBases st' range = Returns (Ok s).
Proof.
  intros Htyped Hrun'.
  destruct (Create_ok_valid contigs _ st' Htyped Hrun')
    as (H1 & H2 & H3 & Hst').
  pose proof (Create_store_inv _ _ _ Htyped Hrun') as Hinv'.
  apply Forall_app in Htyped as [Htyped _].
  apply Forall_app in H1 as [H1 _]. apply Forall_app in H2 as [H2 _].
  assert (H3s : I3 seqs).
  { unfold I3, names in *. rewrite fmap_app in H3.
    now apply NoDup_app in H3 as (? & _ & _). }
  pose proof (Create_clean contigs seqs Htyped
                (valid_scan_clean seqs H1 H2 H3s)) as Hrun.
  eexists. split; [exact Hrun |].
  intros range s Hget.
  pose proof (Create_store_inv _ _ _ Htyped Hrun) as Hinv.
  destruct (GetBases_Ok_inside _ range s Hinv Hget)
    as (entry & Hentry & Hvalid & Hlo & Hhi & ->).
  simpl in Hentry.
  apply (insert_all_lookup_Some seqs _ _ H3s) in Hentry as [Hin Hname].
  apply GetBases_inside; try assumption.
  subst st'. simpl. rewrite <- Hname.
  apply insert_all_lookup; [exact H3 |].
  apply elem_of_app. now left.
Qed.

Lemma Create_extension_preserves_GetBases_witness :
  exists st,
    Create [chr2_contig; chr1_contig] [chr1_seq] = Ok st
    /\ forall range s,
         GetBases st range = Returns (Ok s) ->
         GetBases chr2_then_chr1 range = Returns (Ok s).
Proof.
  apply (Create_extension_preserves_GetBases [chr2_contig; chr1_contig]
           [chr1_seq] [chr2_seq] chr2_then_chr1).
  - compute_done.
  - reflexivity.
Defined.

(** ** What [Next] never does *)

Lemma Next_keeps_iterable (it : FastaFullFileIterable)
    (out : GenomeReferenceRecord) :
  returned (Next it out) <> Returns (Ok true) ->
  iterable (Next it out) = it /\ record (Next it out) = out.
Proof.
  unfold Next.
  destruct (CheckIsAlive it); [| tauto].
  destruct (reader_ it) as [fasta_reader |]; [| tauto].
  destruct (N.of_nat (length (contigs_ fasta_reader)) <=? pos_ it)%N;
    [tauto |].
  destruct (vector_at (contigs_ fasta_reader) (pos_ it)) as [c | ex];
    [| tauto].
  destruct (seqs_ fasta_reader !! name c); simpl; [| tauto].
  intros Hne. now contradiction Hne.
Qed.

(** X9.  [Next] never raises: the access [contigs_.at(pos_)] is always
    within bounds, whatever the position of the iterable, so every call
    returns a status. *)
Theorem Next_never_throws (it : FastaFullFileIterable)
    (out : GenomeReferenceRecord) :
  exists r, returned (Next it out) = Returns r.
Proof.
  unfold Next, vector_at.
  destruct (CheckIsAlive it); [| eauto].
  destruct (reader_ it) as [fasta_reader |]; [| eauto].
  destruct (N.leb_spec (N.of_nat (length (contigs_ fasta_reader))) (pos_ it))
    as [Hend | Hin]; [eauto |].
  destruct (lookup_lt_is_Some_2 (contigs_ fasta_reader) (N.to_nat (pos_ it)))
    as [c Hc]; [lia |].
  rewrite Hc. destruct (seqs_ fasta_reader !! name c); eauto.
Qed.

(** X10.  "No more records" is final, whatever caused it: once a call of
    [Next] has answered [false], the iterable and the output record are
    left as they were and every later call answers [false] again.  This
    covers the stop on a contig that is not cached as well as the end
    of the contig list. *)
Theorem Next_false_is_final (it : FastaFullFileIterable)
    (out : GenomeReferenceRecord) :
  returned (Next it out) = Returns (Ok false) ->
  forall k,
    after_calls k it out = (it, out)
    /\ returned (Next (fst (after_calls k it out))
                      (snd (after_calls k it out)))
       = Returns (Ok false).
Proof.
  intros Hstop.
  assert (Hkeep : iterable (Next it out) = it /\ record (Next it out) = out).
  { apply Next_keeps_iterable. rewrite Hstop. discriminate. }
  destruct Hkeep as [Hit Hout].
  assert (Hcalls : forall k, after_calls k it out = (it, out)).
  { induction k as [| k IH]; simpl; [reflexivity |].
    now rewrite Hit, Hout. }
  intros k. split; [apply Hcalls |].
  now rewrite Hcalls.
Qed.

(** Contigs [chr1; chr2] with only [chr2] cached: the iterable never
    gets past [chr1]. *)
Lemma Next_false_is_final_witness :
  after_calls 3 {| reader_ := Some chr2_only; pos_ := 0 |} ("x", "y")
  = ({| reader_ := Some chr2_only; pos_ := 0 |}, ("x", "y"))
  /\ returned
       (Next (fst (after_calls 3 {| reader_ := Some chr2_only; pos_ := 0 |}
                     ("x", "y")))
             (snd (after_calls 3 {| reader_ := Some chr2_only; pos_ := 0 |}
                     ("x", "y"))))
     = Returns (Ok false).
Proof.
  apply (Next_false_is_final {| reader_ := Some chr2_only; pos_ := 0 |}
           ("x", "y")).
  reflexivity.
Defined.

(** X11.  The position stays within the contig list: on a reader of
    fewer than 2^64 contigs, starting at a position [i <= N], any number
    of calls of [Next] leaves the iterable attached to the same reader
    at a position between [i] and [N], having moved by at most one step
    per call. *)
Theorem Next_position_stays_in_range
    (st : InMemoryFastaReader) (it : FastaFullFileIterable)
    (out : GenomeReferenceRecord) (k : nat) :
  (N.of_nat (length (contigs_ st)) < 2 ^ 64)%N ->
  reader_ it = Some st ->
  (pos_ it <= N.of_nat (length (contigs_ st)))%N ->
  reader_ (fst (after_calls k it out)) = Some st
  /\ (pos_ it <= pos_ (fst (after_calls k it out)))%N
  /\ (pos_ (fst (after_calls k it out)) <= pos_ it + N.of_nat k)%N
  /\ (pos_ (fst (after_calls k it out)) <= N.of_nat (length (contigs_ st)))%N.
Proof.
  intros Hsize. revert it out.
  induction k as [| k IH]; intros it out Halive Hpos.
  - simpl. repeat split; [assumption | lia | lia | assumption].
  - cbn [after_calls].
    assert (Hstep : reader_ (iterable (Next it out)) = Some st
                    /\ (pos_ it <= pos_ (iterable (Next it out)))%N
                    /\ (pos_ (iterable (Next it out)) <= pos_ it + 1)%N
                    /\ (pos_ (iterable (Next it out))
                        <= N.of_nat (length (contigs_ st)))%N).
    { destruct (N.le_gt_cases (N.of_nat (length (contigs_ st))) (pos_ it))
        as [Hend | Hin].
      - rewrite (Next_at_end st it out Halive Hend). simpl.
        repeat split; [assumption | lia | lia | assumption].
      - destruct (lookup_lt_is_Some_2 (contigs_ st) (N.to_nat (pos_ it)))
          as [c Hc]; [lia |].
        rewrite (Next_in_range st it out Halive c Hc).
        destruct (seqs_ st !! name c); simpl.
        + rewrite size_t_incr_small by lia.
          repeat split; [assumption | lia | lia | lia].
        + repeat split; [assumption | lia | lia | assumption]. }
    destruct Hstep as (Halive' & Hle & Hstep & Hpos').
    destruct (IH (iterable (Next it out)) (record (Next it out))
                Halive' Hpos') as (Hr & Hlo & Hhi & Hn).
    repeat split; [assumption | lia | lia | assumption].
Qed.

Lemma Next_position_stays_in_range_witness :
  reader_ (fst (after_calls 5 {| reader_ := Some chr2_then_chr1; pos_ := 0 |}
                  ("x", "y")))
  = Some chr2_then_chr1
  /\ (0 <= pos_ (fst (after_calls 5
                        {| reader_ := Some chr2_then_chr1; pos_ := 0 |}
                        ("x", "y"))))%N
  /\ (pos_ (fst (after_calls 5
                   {| reader_ := Some chr2_then_chr1; pos_ := 0 |}
                   ("x", "y")))
      <= 0 + N.of_nat 5)%N
  /\ (pos_ (fst (after_calls 5
                   {| reader_ := Some chr2_then_chr1; pos_ := 0 |}
                   ("x", "y")))
      <= N.of_nat (length (contigs_ chr2_then_chr1)))%N.
Proof.
  apply (Next_position_stays_in_range chr2_then_chr1
           {| reader_ := Some chr2_then_chr1; pos_ := 0 |}).
  - reflexivity.
  - reflexivity.
  - simpl. lia.
Defined.

(** ** Traversals *)

Lemma cached_prefix_elem (m : gmap string ReferenceSequence)
    (contigs : list ContigInfo) (r : GenomeReferenceRecord) :
  r ∈ cached_prefix m contigs ->
  exists c e, c ∈ contigs /\ m !! name c = Some e /\ r = (name c, bases e).
Proof.
  induction contigs as [| c contigs IH]; simpl; intros Hin.
  - now apply elem_of_nil in Hin.
  - destruct (m !! name c) as [e |] eqn:Hc;
      [| now apply elem_of_nil in Hin].
    apply elem_of_cons in Hin as [-> | Hin].
    + exists c, e. split; [apply elem_of_cons; now left | tauto].
    + destruct (IH Hin) as (c' & e' & Hc' & He' & ->).
      exists c', e'. split; [apply elem_of_cons; now right | tauto].
Qed.

Lemma cached_prefix_of_names (m : gmap string ReferenceSequence)
    (contigs : list ContigInfo) (seqs : list ReferenceSequence) :
  name <$> contigs = names seqs ->
  (forall e, e ∈ seqs -> m !! reference_name (region e) = Some e) ->
  cached_prefix m contigs
  = (fun e => (reference_name (region e), bases e)) <$> seqs.
Proof.
  revert seqs. induction contigs as [| c contigs IH];
    intros [| e seqs] Hnames Hall; try discriminate; [reflexivity |].
  unfold names in Hnames. rewrite !fmap_cons in Hnames.
  inversion Hnames as [[Hc Hrest]].
  simpl. rewrite Hc, (Hall e) by (apply elem_of_cons; now left).
  f_equal. apply IH; [exact Hrest |].
  intros e' He'. apply Hall. apply elem_of_cons. now right.
Qed.

(** X12.  A traversal can be taken up at any position: on a reader of
    fewer than 2^64 contigs, calling [Next] on a live iterable until it
    stops ends with "no more records" after emitting the records of the
    contigs from the current position up to the first one that is not
    cached, and never more records than there are contigs left. *)
Theorem traverse_resumes_from_position
    (st : InMemoryFastaReader) (it : FastaFullFileIterable)
    (out : GenomeReferenceRecord) (fuel : nat) :
  (N.of_nat (length (contigs_ st)) < 2 ^ 64)%N ->
  reader_ it = Some st ->
  (length (contigs_ st) - N.to_nat (pos_ it) < fuel)%nat ->
  exists k recs,
    traverse fuel it out = (recs, NoMoreRecords)
    /\ Forall2 (emitted (seqs_ st))
         (take k (drop (N.to_nat (pos_ it)) (contigs_ st))) recs
    /\ (length recs <= length (contigs_ st) - N.to_nat (pos_ it))%nat
    /\ ((N.to_nat (pos_ it) + k >= length (contigs_ st))%nat
        \/ exists c, contigs_ st !! (N.to_nat (pos_ it) + k)%nat = Some c
                     /\ seqs_ st !! name c = None).
Proof.
  intros Hsize Halive Hfuel. destruct it as [rd p]. simpl in *. subst rd.
  pose proof (traverse_from st fuel (N.to_nat p) out Hsize Hfuel) as Hrun.
  rewrite N2Nat.id in Hrun.
  destruct (cached_prefix_longest (seqs_ st) (drop (N.to_nat p) (contigs_ st)))
    as (k & Hrecs & Hstop).
  exists k, (cached_prefix (seqs_ st) (drop (N.to_nat p) (contigs_ st))).
  split; [exact Hrun | split; [exact Hrecs | split]].
  - apply Forall2_length in Hrecs. rewrite <- Hrecs.
    rewrite length_take, length_drop. lia.
  - destruct Hstop as [-> | (c & Hc & Hnone)].
    + left. rewrite length_drop. lia.
    + right. exists c. now rewrite lookup_drop in Hc.
Qed.

(** Taken up at [chr1], the second of the contigs [chr2; chr1]. *)
Lemma traverse_resumes_from_position_witness :
  exists k recs,
    traverse 2 {| reader_ := Some chr2_then_chr1; pos_ := 1 |} ("x", "y")
    = (recs, NoMoreRecords)
    /\ Forall2 (emitted (seqs_ chr2_then_chr1))
         (take k (drop (N.to_nat 1) (contigs_ chr2_then_chr1))) recs
    /\ (length recs
        <= length (contigs_ chr2_then_chr1) - N.to_nat 1)%nat
    /\ ((N.to_nat 1 + k >= length (contigs_ chr2_then_chr1))%nat
        \/ exists c,
             contigs_ chr2_then_chr1 !! (N.to_nat 1 + k)%nat = Some c
             /\ seqs_ chr2_then_chr1 !! name c = None).
Proof.
  apply (traverse_resumes_from_position chr2_then_chr1
           {| reader_ := Some chr2_then_chr1; pos_ := 1 |}).
  - reflexivity.
  - reflexivity.
  - simpl. lia.
Defined.

(** X13.  The two access paths agree: on a reader built by [Create],
    every record [(n, b)] a full traversal emits belongs to a cached
    sequence named [n], and [GetBases] on the region of that sequence
    returns the same bases [b]. *)
Theorem traverse_records_agree_with_GetBases
    (contigs : list ContigInfo) (seqs : list ReferenceSequence)
    (st : InMemoryFastaReader) (it : FastaFullFileIterable)
    (out : GenomeReferenceRecord) (fuel : nat) :
  Forall (fun e => region_typed (region e)) seqs ->
  Create contigs seqs = Ok st ->
  (N.of_nat (length contigs) < 2 ^ 64)%N ->
  Iterate st = Ok it ->
  (length contigs < fuel)%nat ->
  forall r, r ∈ fst (traverse fuel it out) ->
    exists e,
      e ∈ seqs
      /\ reference_name (region e) = fst r
      /\ GetBases st (region e) = Returns (Ok (snd r)).
Proof.
  intros Htyped Hrun Hsize Hit Hfuel r Hr.
  pose proof (Create_store_inv _ _ _ Htyped Hrun) as Hinv.
  destruct (Create_ok_valid contigs seqs st Htyped Hrun)
    as (_ & _ & H3 & Hst).
  assert (Hcontigs : contigs_ st = contigs) by now subst st.
  unfold Iterate in Hit. inversion Hit; subst it.
  pose proof (traverse_from st fuel 0 out) as Htr.
  change (N.of_nat 0) with 0%N in Htr.
  rewrite Htr in Hr by (rewrite Hcontigs; first [assumption | lia]).
  simpl in Hr. apply cached_prefix_elem in Hr as (c & e & _ & He & ->).
  destruct (Hinv _ _ He) as (Hname & _ & [Hne Hord] & Hlen).
  unfold I2 in Hlen. exists e. simpl. split; [| split; [exact Hname |]].
  - rewrite Hst in He. simpl in He.
    now apply (insert_all_lookup_Some seqs) in He.
  - rewrite (GetBases_inside st (region e) e Hinv).
    + rewrite Z.sub_diag, <- Hlen, Nat2Z.id. simpl (Z.to_nat 0).
      now rewrite substring_all.
    + apply IsValidInterval_spec. tauto.
    + now rewrite Hname.
    + lia.
    + lia.
Qed.

Lemma traverse_records_agree_with_GetBases_witness :
  exists e,
    e ∈ [chr1_seq; chr2_seq]
    /\ reference_name (region e) = fst ("chr1", "ACGTTGCA")
    /\ GetBases chr2_then_chr1 (region e)
       = Returns (Ok (snd ("chr1", "ACGTTGCA"))).
Proof.
  apply (traverse_records_agree_with_GetBases [chr2_contig; chr1_contig]
           [chr1_seq; chr2_seq] chr2_then_chr1
           {| reader_ := Some chr2_then_chr1; pos_ := 0 |} ("x", "y") 3).
  - compute_done.
  - reflexivity.
  - reflexivity.
  - reflexivity.
  - simpl. lia.
  - compute_done.
Defined.

(** X15.  Round trip through the traversal: when the contig list names
    exactly the cached sequences, in the same order, a full traversal of
    the reader built by [Create] gives back the name and the bases of
    every input sequence, in input order. *)
Theorem Create_traverse_round_trip
    (contigs : list ContigInfo) (seqs : list ReferenceSequence)
    (st : InMemoryFastaReader) (it : FastaFullFileIterable)
    (out : GenomeReferenceRecord) (fuel : nat) :
  Forall (fun e => region_typed (region e)) seqs ->
  name <$> contigs = names seqs ->
  Create contigs seqs = Ok st ->
  (N.of_nat (length contigs) < 2 ^ 64)%N ->
  Iterate st = Ok it ->
  (length contigs < fuel)%nat ->
  traverse fuel it out
  = ((fun e => (reference_name (region e), bases e)) <$> seqs,
     NoMoreRecords).
Proof.
  intros Htyped Hnames Hrun Hsize Hit Hfuel.
  destruct (Create_ok_valid contigs seqs st Htyped Hrun)
    as (_ & _ & H3 & Hst).
  assert (Hcontigs : contigs_ st = contigs) by now subst st.
  unfold Iterate in Hit. inversion Hit; subst it.
  pose proof (traverse_from st fuel 0 out) as Htr.
  change (N.of_nat 0) with 0%N in Htr.
  rewrite Htr by (rewrite Hcontigs; first [assumption | lia]).
  simpl. rewrite Hcontigs. f_equal.
  apply cached_prefix_of_names; [exact Hnames |].
  intros e He. subst st. simpl. now apply insert_all_lookup.
Qed.

Lemma Create_traverse_round_trip_witness :
  traverse 3 {| reader_ := Some chr2_then_chr1; pos_ := 0 |} ("x", "y")
  = ((fun e => (reference_name (region e), bases e))
       <$> [chr2_seq; chr1_seq],
     NoMoreRecords).
Proof.
  apply (Create_traverse_round_trip [chr2_contig; chr1_contig]
           [chr2_seq; chr1_seq] chr2_then_chr1).
  - compute_done.
  - reflexivity.
  - reflexivity.
  - reflexivity.
  - reflexivity.
  - simpl. lia.
Defined.

(** ** One sequence per contig *)

Lemma Create_loop_ok_NoDup (seqs : list ReferenceSequence)
    (m m' : gmap string ReferenceSequence) :
  Create_loop seqs m = Ok m' ->
  NoDup (names seqs) /\ forall k, k ∈ names seqs -> m !! k = None.
Proof.
  revert m. induction seqs as [| e seqs IH]; intros m Hrun.
  - split; [apply NoDup_nil_2 |].
    intros k Hk. now apply elem_of_nil in Hk.
  - simpl in Hrun.
    destruct (empty_string _ || _ || _); [discriminate |].
    destruct (negb (_ =? _)); [discriminate |].
    unfold emplace in Hrun.
    destruct (m !! reference_name (region e)) as [v |] eqn:Hfree;
      simpl in Hrun; [discriminate |].
    destruct (IH _ Hrun) as [Hnd Hnew].
    assert (Hfresh : reference_name (region e) ∉ names seqs).
    { intros Hin. specialize (Hnew _ Hin).
      now rewrite lookup_insert_eq in Hnew. }
    change (names (e :: seqs))
      with (reference_name (region e) :: names seqs).
    split; [now apply NoDup_cons |].
    intros k Hk. apply elem_of_cons in Hk as [-> | Hk]; [assumption |].
    specialize (Hnew _ Hk). apply lookup_insert_None in Hnew. tauto.
Qed.

(** X16.  Only one sequence per contig is supported: a list in which two
    sequences carry the same reference name is rejected with
    [InvalidArgument], wherever the two stand, whatever their regions
    and whatever else the list holds. *)
Theorem Create_rejects_shared_reference_name
    (contigs : list ContigInfo) (pre mid post : list ReferenceSequence)
    (e e' : ReferenceSequence) :
  reference_name (region e) = reference_name (region e') ->
  exists msg,
    Create contigs (pre ++ e :: mid ++ e' :: post)
    = Error InvalidArgument msg.
Proof.
  intros Hsame. unfold Create.
  destruct (Create_loop (pre ++ e :: mid ++ e' :: post) ∅) as [m | c msg]
    eqn:Hloop.
  - exfalso. apply Create_loop_ok_NoDup in Hloop as [Hnd _].
    unfold names in Hnd.
    rewrite fmap_app, fmap_cons, fmap_app, fmap_cons in Hnd.
    apply NoDup_app in Hnd as (_ & _ & Hnd).
    apply NoDup_cons in Hnd as [Hfresh _].
    apply Hfresh. apply elem_of_app. right.
    rewrite Hsame. apply elem_of_cons. now left.
  - exists msg. now rewrite (Create_loop_error _ _ _ _ Hloop).
Qed.

(** Two disjoint slices of [chr1] cannot be cached together. *)
Lemma Create_rejects_shared_reference_name_witness :
  exists msg,
    Create [chr1_contig]
      ([chr2_seq] ++ chr1_seq :: [] ++ cached "chr1" 200 204 "AAAA" :: [])
    = Error InvalidArgument msg.
Proof.
  apply Create_rejects_shared_reference_name. reflexivity.
Defined.
